(** * unittest.c: result log, suite tree, statistics roll-up and tree report

    A shallow embedding of [src/unittest.c] and [src/unittest.h].

    - C [int] is a [Z] kept in the signed 32-bit range by [to_int];
      [size_t] is a [Z] kept below [2^64] by [to_size_t].
    - The enumeration [test_status_t] is an integer type: a status is a
      [Z], the six enumerators are the values 0 to 5, and any other value
      can be stored and is handled as the [switch] statements handle it.
    - A struct is a constructor with one argument per field, in the order
      of the header; a pointer to it is either null or owns its target
      (the header's ownership is a tree: every node is linked from one
      place only).  A function that writes through a pointer returns the
      pointer's target after the call.
    - [realloc], [malloc] and [strdup] may fail: the answers of the
      allocator are read from an [allocator] value that is threaded
      through every call.
    - [printf] appends to a string; what a function prints is the string
      it returns. *)

From Stdlib Require Import ZArith Lia String Ascii DecimalString.
From Stdlib Require DecimalPos DecimalZ.
From stdpp Require Import base list strings.

Open Scope Z_scope.

(** ** Machine integers *)

Definition INT_MAX : Z := 2147483647.
Definition PTRDIFF_MAX : Z := 9223372036854775807.

(** Conversion to [int]: the value modulo [2^32], read as signed. *)
Definition to_int (z : Z) : Z := (z + 2147483648) mod 4294967296 - 2147483648.

(** Conversion to [size_t] (64 bits). *)
Definition to_size_t (z : Z) : Z := z mod 18446744073709551616.

(** ** unittest.h: statuses and statistics *)

(** [test_status_t]: an enumeration is an integer type in C.  Its six
    enumerators are the values 0 to 5, but a [test_status_t] can hold any
    value of the integer type, and nothing in [unittest.c] checks the
    statuses it is given: [test_case_add_result] stores what it gets, and
    the [switch] statements send every other value to their [default]
    branch (or to none). *)
Abbreviation test_status_t := Z (only parsing).

Abbreviation STATUS_SUCCESS := 0 (only parsing).
Abbreviation STATUS_UNEXPECTED_OUTPUT := 1 (only parsing).
Abbreviation STATUS_EXPECTED_BUILD_ERROR := 2 (only parsing).
Abbreviation STATUS_BUILD_ERROR := 3 (only parsing).
Abbreviation STATUS_EXPECTED_RUNTIME_ERROR := 4 (only parsing).
Abbreviation STATUS_RUNTIME_ERROR := 5 (only parsing).

Record test_stats_t : Type := mk_stats {
  success_count : Z;
  unexpected_output_count : Z;
  expected_build_error_count : Z;
  build_error_count : Z;
  expected_runtime_error_count : Z;
  runtime_error_count : Z
}.

(** [memset(&stats, 0, sizeof(test_stats_t))]. *)
Definition zero_stats : test_stats_t := mk_stats 0 0 0 0 0 0.

(** [sizeof(test_status_t)]: an enum has the size of an [int]. *)
Definition sizeof_test_status_t : Z := 4.

(** A test function is a code address; what the code at an address does
    is given to the runner as a table (see [test_runner_run]). *)
Definition test_func_t : Type := positive.

(** One slot of a [test_status_t] array: [None] until it is first written. *)
Abbreviation slot := (option test_status_t).

(** [struct test_case] and [test_case_t*].  [results] is [None] for the
    null pointer and otherwise the allocated array, one entry per slot. *)
Inductive test_case : Type :=
| mk_case (name : string) (test_func : option test_func_t)
          (results : option (list slot))
          (result_count : Z) (result_capacity : Z) (next : case_ptr)
with case_ptr : Type :=
| NULL_case
| Case (c : test_case).

Definition case_name (c : test_case) : string :=
  match c with mk_case n _ _ _ _ _ => n end.
Definition test_func (c : test_case) : option test_func_t :=
  match c with mk_case _ f _ _ _ _ => f end.
Definition results (c : test_case) : option (list slot) :=
  match c with mk_case _ _ r _ _ _ => r end.
Definition result_count (c : test_case) : Z :=
  match c with mk_case _ _ _ n _ _ => n end.
Definition result_capacity (c : test_case) : Z :=
  match c with mk_case _ _ _ _ k _ => k end.
Definition case_next (c : test_case) : case_ptr :=
  match c with mk_case _ _ _ _ _ x => x end.

Definition set_results (c : test_case) (r : option (list slot)) : test_case :=
  match c with mk_case n f _ k cap x => mk_case n f r k cap x end.
Definition set_result_count (c : test_case) (k : Z) : test_case :=
  match c with mk_case n f r _ cap x => mk_case n f r k cap x end.
Definition set_result_capacity (c : test_case) (cap : Z) : test_case :=
  match c with mk_case n f r k _ x => mk_case n f r k cap x end.
Definition set_case_next (c : test_case) (x : case_ptr) : test_case :=
  match c with mk_case n f r k cap _ => mk_case n f r k cap x end.

(** [struct test_suite] and [test_suite_t*]. *)
Inductive test_suite : Type :=
| mk_suite (name : string) (test_cases : case_ptr)
           (child_suites : suite_ptr) (next : suite_ptr) (stats : test_stats_t)
with suite_ptr : Type :=
| NULL_suite
| Suite (s : test_suite).

Definition suite_name (s : test_suite) : string :=
  match s with mk_suite n _ _ _ _ => n end.
Definition test_cases (s : test_suite) : case_ptr :=
  match s with mk_suite _ c _ _ _ => c end.
Definition child_suites (s : test_suite) : suite_ptr :=
  match s with mk_suite _ _ k _ _ => k end.
Definition suite_next (s : test_suite) : suite_ptr :=
  match s with mk_suite _ _ _ x _ => x end.
Definition stats (s : test_suite) : test_stats_t :=
  match s with mk_suite _ _ _ _ st => st end.

Definition set_test_cases (s : test_suite) (c : case_ptr) : test_suite :=
  match s with mk_suite n _ k x st => mk_suite n c k x st end.
Definition set_child_suites (s : test_suite) (k : suite_ptr) : test_suite :=
  match s with mk_suite n c _ x st => mk_suite n c k x st end.
Definition set_suite_next (s : test_suite) (x : suite_ptr) : test_suite :=
  match s with mk_suite n c k _ st => mk_suite n c k x st end.
Definition set_stats (s : test_suite) (st : test_stats_t) : test_suite :=
  match s with mk_suite n c k x _ => mk_suite n c k x st end.

(** [struct test_runner] and [test_runner_t*] ([None] is the null pointer). *)
Record test_runner : Type := mk_runner {
  root_suite : suite_ptr;
  global_stats : test_stats_t
}.

Scheme test_case_mut := Induction for test_case Sort Prop
  with case_ptr_mut := Induction for case_ptr Sort Prop.
Scheme test_suite_mut := Induction for test_suite Sort Prop
  with suite_ptr_mut := Induction for suite_ptr Sort Prop.
Combined Scheme suite_mutind from test_suite_mut, suite_ptr_mut.

(** ** The allocator *)

(** The answers the allocator will give, in call order: [true] grants the
    request.  When the list is used up every further request is granted. *)
Definition allocator : Type := list bool.

Definition grant (m : allocator) : bool * allocator :=
  match m with
  | [] => (true, [])
  | b :: m' => (b, m')
  end.

(** [realloc(ptr, size)], sizes in bytes.  A request above [PTRDIFF_MAX]
    bytes is refused whatever the allocator's state; any other request is
    answered by the allocator.  On success the array holds
    [size / sizeof(test_status_t)] slots: the old contents up to the
    smaller of the two sizes, and unwritten slots after them. *)
Definition realloc (ptr : option (list slot)) (size : Z) (m : allocator)
  : option (list slot) * allocator :=
  if PTRDIFF_MAX <? size then (None, m)
  else
    let '(ok, m') := grant m in
    if ok
    then (Some (resize (Z.to_nat (size / sizeof_test_status_t)) None
                       (default [] ptr)), m')
    else (None, m').

(** ** unittest.c: test cases *)

Definition INITIAL_RESULT_CAPACITY : Z := 8.

(** [test_case_create]: [malloc] of the struct, then [strdup] of the name;
    either may fail, and then the result is the null pointer. *)
Definition test_case_create (name : string) (test_func : option test_func_t)
    (m : allocator) : case_ptr * allocator :=
  let '(ok, m1) := grant m in
  if negb ok then (NULL_case, m1)
  else
    let '(ok_name, m2) := grant m1 in
    if negb ok_name then (NULL_case, m2)
    else (Case (mk_case name test_func None 0 0 NULL_case), m2).

(** [test_suite_create] and [test_runner_create], built the same way. *)
Definition test_suite_create (name : string) (m : allocator)
  : suite_ptr * allocator :=
  let '(ok, m1) := grant m in
  if negb ok then (NULL_suite, m1)
  else
    let '(ok_name, m2) := grant m1 in
    if negb ok_name then (NULL_suite, m2)
    else (Suite (mk_suite name NULL_case NULL_suite NULL_suite zero_stats), m2).

Definition test_runner_create (m : allocator) : option test_runner * allocator :=
  let '(ok, m1) := grant m in
  if negb ok then (None, m1)
  else (Some (mk_runner NULL_suite zero_stats), m1).

(** The array a case's [results] points to; no slots behind a null pointer. *)
Definition slots (c : test_case) : list slot := default [] (results c).

(** [results[i] = status].  A store outside the array is undefined in C;
    here it leaves the array as it is ([case_inv] rules it out). *)
Definition store (r : option (list slot)) (i : Z) (status : test_status_t)
  : option (list slot) :=
  if i <? 0 then r
  else (fun a => <[Z.to_nat i := Some status]> a) <$> r.

(** The last two statements of [test_case_add_result]:
    [results[result_count] = status; result_count++]. *)
Definition push_result (c : test_case) (status : test_status_t) : test_case :=
  let c1 := set_results c (store (results c) (result_count c) status) in
  set_result_count c1 (to_int (result_count c1 + 1)).

(** The local [new_capacity] of [test_case_add_result], and the byte
    count it passes to [realloc]:
    [new_capacity * sizeof(test_status_t)], computed in [size_t]. *)
Definition new_capacity (c : test_case) : Z :=
  if result_capacity c =? 0 then INITIAL_RESULT_CAPACITY
  else to_int (result_capacity c * 2).

Definition new_size (c : test_case) : Z :=
  to_size_t (to_size_t (new_capacity c) * sizeof_test_status_t).

(** [test_case_add_result] past its null check, on the struct the
    pointer refers to. *)
Definition add_result_at (c : test_case) (status : test_status_t)
    (m : allocator) : Z * test_case * allocator :=
  if result_capacity c <=? result_count c then
    match realloc (results c) (new_size c) m with
    | (None, m') => (-1, c, m')
    | (Some new_results, m') =>
        let c1 := set_results c (Some new_results) in
        let c2 := set_result_capacity c1 (new_capacity c) in
        (0, push_result c2 status, m')
    end
  else (0, push_result c status, m).

Definition test_case_add_result (test_case : case_ptr) (status : test_status_t)
    (m : allocator) : Z * case_ptr * allocator :=
  match test_case with
  | NULL_case => (-1, NULL_case, m)
  | Case c =>
      let '(r, c', m') := add_result_at c status m in (r, Case c', m')
  end.

(** The [for] loop of [test_case_add_results_va]: [n] iterations are left,
    [args] are the variadic arguments not yet read by [va_arg].  Reading
    past the supplied arguments is undefined in C; here the loop ends
    there as if the count had been reached. *)
Fixpoint add_results_loop (n : nat) (args : list test_status_t)
    (test_case : case_ptr) (m : allocator) : Z * case_ptr * allocator :=
  match n, args with
  | S n', status :: args' =>
      match test_case_add_result test_case status m with
      | (0, test_case', m') => add_results_loop n' args' test_case' m'
      | (_, test_case', m') => (-1, test_case', m')
      end
  | _, _ => (0, test_case, m)
  end.

Definition test_case_add_results_va (test_case : case_ptr) (count : Z)
    (args : list test_status_t) (m : allocator) : Z * case_ptr * allocator :=
  match test_case with
  | NULL_case => (-1, test_case, m)
  | Case _ =>
      if count <=? 0 then (-1, test_case, m)
      else add_results_loop (Z.to_nat count) args test_case m
  end.

(** ** unittest.c: suites and the runner's list *)

(** [while (current->next) current = current->next; current->next = child;]
    on a chain of suites: the last struct of the chain gets [child] as
    its [next], every struct before it is left as it is. *)
Fixpoint suite_link_last (current : test_suite) (child : suite_ptr) : test_suite :=
  match suite_next current with
  | Suite nxt => set_suite_next current (Suite (suite_link_last nxt child))
  | NULL_suite => set_suite_next current child
  end.

(** The same loop on a chain of cases. *)
Fixpoint case_link_last (current : test_case) (added : case_ptr) : test_case :=
  match case_next current with
  | Case nxt => set_case_next current (Case (case_link_last nxt added))
  | NULL_case => set_case_next current added
  end.

(** The result is what [parent] points to after the call. *)
Definition test_suite_add_child (parent child : suite_ptr) : suite_ptr :=
  match parent, child with
  | Suite p, Suite _ =>
      match child_suites p with
      | NULL_suite => Suite (set_child_suites p child)
      | Suite current =>
          Suite (set_child_suites p (Suite (suite_link_last current child)))
      end
  | _, _ => parent
  end.

(** The result is what [suite] points to after the call. *)
Definition test_suite_add_test_case (suite : suite_ptr) (test_case : case_ptr)
  : suite_ptr :=
  match suite, test_case with
  | Suite s, Case _ =>
      match test_cases s with
      | NULL_case => Suite (set_test_cases s test_case)
      | Case current =>
          Suite (set_test_cases s (Case (case_link_last current test_case)))
      end
  | _, _ => suite
  end.

(** The result is what [runner] points to after the call. *)
Definition test_runner_add_suite (runner : option test_runner) (suite : suite_ptr)
  : option test_runner :=
  match runner, suite with
  | Some r, Suite _ =>
      match root_suite r with
      | NULL_suite => Some (mk_runner suite (global_stats r))
      | Suite current =>
          Some (mk_runner (Suite (suite_link_last current suite)) (global_stats r))
      end
  | _, _ => runner
  end.

(** ** unittest.c: statistics *)

(** [results[i]] as the [switch] statements see it: the value stored in
    the slot, or [None] for a slot never written and for a read outside
    the array (both undefined in C; [None] is treated like a value that
    is none of the six enumerators). *)
Definition load (c : test_case) (i : Z) : option test_status_t :=
  if i <? 0 then None else mjoin (slots c !! Z.to_nat i).

(** The [switch] of [calculate_suite_stats]; it has no [default]: a value
    that is none of the six enumerators changes no counter. *)
Definition tally (status : option test_status_t) (st : test_stats_t) : test_stats_t :=
  match status with
  | Some STATUS_SUCCESS =>
      mk_stats (to_int (success_count st + 1)) (unexpected_output_count st)
        (expected_build_error_count st) (build_error_count st)
        (expected_runtime_error_count st) (runtime_error_count st)
  | Some STATUS_UNEXPECTED_OUTPUT =>
      mk_stats (success_count st) (to_int (unexpected_output_count st + 1))
        (expected_build_error_count st) (build_error_count st)
        (expected_runtime_error_count st) (runtime_error_count st)
  | Some STATUS_EXPECTED_BUILD_ERROR =>
      mk_stats (success_count st) (unexpected_output_count st)
        (to_int (expected_build_error_count st + 1)) (build_error_count st)
        (expected_runtime_error_count st) (runtime_error_count st)
  | Some STATUS_BUILD_ERROR =>
      mk_stats (success_count st) (unexpected_output_count st)
        (expected_build_error_count st) (to_int (build_error_count st + 1))
        (expected_runtime_error_count st) (runtime_error_count st)
  | Some STATUS_EXPECTED_RUNTIME_ERROR =>
      mk_stats (success_count st) (unexpected_output_count st)
        (expected_build_error_count st) (build_error_count st)
        (to_int (expected_runtime_error_count st + 1)) (runtime_error_count st)
  | Some STATUS_RUNTIME_ERROR =>
      mk_stats (success_count st) (unexpected_output_count st)
        (expected_build_error_count st) (build_error_count st)
        (expected_runtime_error_count st) (to_int (runtime_error_count st + 1))
  | _ => st
  end.

(** The six [+=] of the child loop. *)
Definition add_stats (st child : test_stats_t) : test_stats_t :=
  mk_stats
    (to_int (success_count st + success_count child))
    (to_int (unexpected_output_count st + unexpected_output_count child))
    (to_int (expected_build_error_count st + expected_build_error_count child))
    (to_int (build_error_count st + build_error_count child))
    (to_int (expected_runtime_error_count st + expected_runtime_error_count child))
    (to_int (runtime_error_count st + runtime_error_count child)).

(** [for (int i = 0; i < result_count; i++) switch (results[i]) ...]. *)
Definition tally_case (c : test_case) (st : test_stats_t) : test_stats_t :=
  foldl (fun st i => tally (load c i) st) st (seqZ 0 (result_count c)).

(** The [while (current_case)] loop of [calculate_suite_stats]. *)
Fixpoint tally_cases (current_case : case_ptr) (st : test_stats_t) : test_stats_t :=
  match current_case with
  | NULL_case => st
  | Case c => tally_cases (case_next c) (tally_case c st)
  end.

(** [calculate_suite_stats] past its null check, and its loop over the
    child suites.  [calculate_suite_stats_at] leaves the struct's [next]
    alone; the loop walks the chain and passes the running [suite->stats]
    along. *)
Fixpoint calculate_suite_stats_at (suite : test_suite) : test_suite :=
  let st := tally_cases (test_cases suite) zero_stats in
  let '(children, st') := calculate_children (child_suites suite) st in
  mk_suite (suite_name suite) (test_cases suite) children (suite_next suite) st'
with calculate_children (current_suite : suite_ptr) (st : test_stats_t)
  : suite_ptr * test_stats_t :=
  match current_suite with
  | NULL_suite => (NULL_suite, st)
  | Suite cs =>
      let cs' := calculate_suite_stats_at cs in
      let '(rest, st') := calculate_children (suite_next cs) (add_stats st (stats cs')) in
      (Suite (set_suite_next cs' rest), st')
  end.

Definition calculate_suite_stats (suite : suite_ptr) : suite_ptr :=
  match suite with
  | NULL_suite => NULL_suite
  | Suite s => Suite (calculate_suite_stats_at s)
  end.

(** ** unittest.c: the report *)

(** A C string is kept as its bytes before the terminator; [printf]'s
    output is the bytes appended to the stream. *)
Definition ESC : ascii := "027"%char.
Definition ANSI_RESET : string := String ESC "[0m".
Definition ANSI_GREEN : string := String ESC "[32m".
Definition ANSI_YELLOW : string := String ESC "[33m".
Definition ANSI_RED : string := String ESC "[31m".
Definition ANSI_GRAY : string := String ESC "[90m".

(** The box-drawing characters of the source file, in its UTF-8 bytes. *)
Definition box (last : ascii) : string :=
  String "226"%char (String "148"%char (String last EmptyString)).
Definition CORNER : string := box "148"%char.
Definition TEE : string := box "156"%char.
Definition DASH : string := box "128"%char.
Definition BAR : string := box "130"%char.
Definition NL : string := String "010"%char EmptyString.

Definition strlen (s : string) : Z := Z.of_nat (String.length s).

Definition get_status_color (status : option test_status_t) : string :=
  match status with
  | Some STATUS_SUCCESS => ANSI_GREEN
  | Some STATUS_UNEXPECTED_OUTPUT => ANSI_YELLOW
  | Some STATUS_EXPECTED_BUILD_ERROR
  | Some STATUS_EXPECTED_RUNTIME_ERROR => ANSI_GRAY
  | Some STATUS_BUILD_ERROR
  | Some STATUS_RUNTIME_ERROR => ANSI_RED
  | _ => ANSI_RESET
  end.

Definition get_status_char (status : option test_status_t) : ascii :=
  match status with
  | Some STATUS_SUCCESS
  | Some STATUS_UNEXPECTED_OUTPUT => "K"%char
  | Some STATUS_EXPECTED_BUILD_ERROR
  | Some STATUS_BUILD_ERROR => "B"%char
  | Some STATUS_EXPECTED_RUNTIME_ERROR
  | Some STATUS_RUNTIME_ERROR => "R"%char
  | _ => "?"%char
  end.

Fixpoint spaces (n : nat) : string :=
  match n with
  | O => EmptyString
  | S n' => String " "%char (spaces n')
  end.

(** [%d] and [%2d] of an [int]. *)
Definition fmt_d (z : Z) : string := NilZero.string_of_int (Z.to_int z).
Definition fmt_2d (z : Z) : string :=
  let s := fmt_d z in spaces (2 - String.length s) +:+ s.

Definition print_legend : string :=
  (ANSI_GREEN +:+ "K" +:+ ANSI_RESET +:+ " - success                " +:+
   ANSI_YELLOW +:+ "K" +:+ ANSI_RESET +:+ " - unexpected output" +:+ NL) +:+
  (ANSI_GRAY +:+ "B" +:+ ANSI_RESET +:+ " - expected build error   " +:+
   ANSI_RED +:+ "B" +:+ ANSI_RESET +:+ " - build error" +:+ NL) +:+
  (ANSI_GRAY +:+ "R" +:+ ANSI_RESET +:+ " - expected runtime error " +:+
   ANSI_RED +:+ "R" +:+ ANSI_RESET +:+ " - runtime error" +:+ NL) +:+
  NL.

Definition print_stats (st : test_stats_t) : string :=
  "K: " +:+ ANSI_GREEN +:+ fmt_2d (success_count st) +:+ ANSI_RESET +:+ "/" +:+
  ANSI_YELLOW +:+ fmt_d (unexpected_output_count st) +:+ ANSI_RESET +:+
  "  B: " +:+ ANSI_GRAY +:+ fmt_2d (expected_build_error_count st) +:+ ANSI_RESET +:+ "/" +:+
  ANSI_RED +:+ fmt_d (build_error_count st) +:+ ANSI_RESET +:+
  "  R: " +:+ ANSI_GRAY +:+ fmt_2d (expected_runtime_error_count st) +:+ ANSI_RESET +:+ "/" +:+
  ANSI_RED +:+ fmt_d (runtime_error_count st) +:+ ANSI_RESET.

(** [snprintf(buf, size, ...)]: at most [size - 1] bytes are kept. *)
Definition snprintf (size : nat) (s : string) : string :=
  String.substring 0 (size - 1) s.

Definition is_null_suite (p : suite_ptr) : bool :=
  match p with NULL_suite => true | Suite _ => false end.
Definition is_null_case (p : case_ptr) : bool :=
  match p with NULL_case => true | Case _ => false end.

(** The loop that prints one case's results. *)
Definition print_results (c : test_case) : string :=
  foldl (fun out i =>
           out +:+ get_status_color (load c i) +:+
           String (get_status_char (load c i)) EmptyString +:+
           ANSI_RESET +:+ " ")
        EmptyString (seqZ 0 (result_count c)).

(** The [while (current_case)] loop of [print_tree_node]; [no_children]
    is [suite->child_suites == NULL]. *)
Fixpoint print_cases (current_case : case_ptr) (new_prefix : string)
    (no_children : bool) : string :=
  match current_case with
  | NULL_case => EmptyString
  | Case c =>
      let is_last_case := is_null_case (case_next c) && no_children in
      new_prefix +:+ (if is_last_case then CORNER else TEE) +:+ DASH +:+
      case_name c +:+ ": " +:+ print_results c +:+ NL +:+
      print_cases (case_next c) new_prefix no_children
  end.

(** [print_tree_node] past its null check, and the loop that calls it on
    every suite of a chain with [is_last = (current->next == NULL)]: the
    child loop of [print_tree_node] and the second loop of
    [print_test_results] are this loop. *)
Fixpoint print_tree_node_at (suite : test_suite) (prefix : string)
    (is_last : bool) (depth : Z) : string :=
  let name_len := to_int (strlen (suite_name suite)) in
  let padding :=
    to_int (to_size_t (to_size_t (to_size_t (50 - strlen prefix) - name_len) - 2)) in
  let padding := if padding <? 1 then 1 else padding in
  let new_prefix :=
    snprintf 256 (prefix +:+ (if is_last then " " else BAR) +:+ " ") in
  (prefix +:+ (if is_last then CORNER else TEE) +:+ DASH +:+ suite_name suite) +:+
  spaces (Z.to_nat padding) +:+
  print_stats (stats suite) +:+ NL +:+
  print_siblings (child_suites suite) new_prefix (to_int (depth + 1)) +:+
  print_cases (test_cases suite) new_prefix (is_null_suite (child_suites suite))
with print_siblings (current_suite : suite_ptr) (prefix : string) (depth : Z)
  : string :=
  match current_suite with
  | NULL_suite => EmptyString
  | Suite cs =>
      print_tree_node_at cs prefix (is_null_suite (suite_next cs)) depth +:+
      print_siblings (suite_next cs) prefix depth
  end.

Definition print_tree_node (suite : suite_ptr) (prefix : string)
    (is_last : bool) (depth : Z) : string :=
  match suite with
  | NULL_suite => EmptyString
  | Suite s => print_tree_node_at s prefix is_last depth
  end.

(** The first loop of [print_test_results]: [calculate_suite_stats] on
    every suite of the top-level chain. *)
Fixpoint calculate_siblings (current : suite_ptr) : suite_ptr :=
  match current with
  | NULL_suite => NULL_suite
  | Suite s =>
      Suite (set_suite_next (calculate_suite_stats_at s)
                            (calculate_siblings (suite_next s)))
  end.

(** What is printed, and what [runner] points to after the call. *)
Definition print_test_results (runner : option test_runner)
  : string * option test_runner :=
  match runner with
  | None => (EmptyString, None)
  | Some r =>
      match root_suite r with
      | NULL_suite => (EmptyString, runner)
      | Suite _ =>
          let root := calculate_siblings (root_suite r) in
          (print_legend +:+ print_siblings root EmptyString 0,
           Some (mk_runner root (global_stats r)))
      end
  end.

(** ** unittest.c: the run *)

Section Run.

(** The state the test functions work on, and the code behind each
    function pointer: a call returns a status and the next state.  The
    test functions do not reach the runner's own structures. *)
Variable G : Type.
Variable code : test_func_t -> G -> test_status_t * G.

(** The program state a run goes through: the allocator, the state of
    the test functions, the two output streams, and the calls made
    through function pointers, in the order they were made. *)
Record world : Type := mk_world {
  w_alloc : allocator;
  w_user : G;
  w_calls : list test_func_t;
  w_stdout : string;
  w_stderr : string
}.

(** The body of the inner loop of [test_runner_run], for one case. *)
Definition run_case (c : test_case) (w : world) : test_case * world :=
  match test_func c with
  | Some f =>
      if result_count c =? 0 then
        let '(result, g) := code f (w_user w) in
        let '(r, c', m) := add_result_at c result (w_alloc w) in
        let warning :=
          if r =? 0 then EmptyString
          else "Warning: Failed to add test result for " +:+ case_name c +:+ NL in
        (c', mk_world m g (w_calls w ++ [f]) (w_stdout w) (w_stderr w +:+ warning))
      else (c, w)
  | None => (c, w)
  end.

Fixpoint run_cases (current_case : case_ptr) (w : world) : case_ptr * world :=
  match current_case with
  | NULL_case => (NULL_case, w)
  | Case c =>
      let '(c', w1) := run_case c w in
      let '(rest, w2) := run_cases (case_next c) w1 in
      (Case (set_case_next c' rest), w2)
  end.

Fixpoint run_suites (current_suite : suite_ptr) (w : world) : suite_ptr * world :=
  match current_suite with
  | NULL_suite => (NULL_suite, w)
  | Suite s =>
      let '(cases, w1) := run_cases (test_cases s) w in
      let '(rest, w2) := run_suites (suite_next s) w1 in
      (Suite (mk_suite (suite_name s) cases (child_suites s) rest (stats s)), w2)
  end.

Definition test_runner_run (runner : option test_runner) (w : world)
  : option test_runner * world :=
  match runner with
  | None => (None, w)
  | Some r =>
      let '(root, w1) := run_suites (root_suite r) w in
      let '(printed, runner') :=
        print_test_results (Some (mk_runner root (global_stats r))) in
      (runner',
       mk_world (w_alloc w1) (w_user w1) (w_calls w1)
                (w_stdout w1 +:+ printed) (w_stderr w1))
  end.

End Run.

Arguments mk_world {G}.
Arguments w_alloc {G}.
Arguments w_user {G}.
Arguments w_calls {G}.
Arguments w_stdout {G}.
Arguments w_stderr {G}.
Arguments run_case {G}.
Arguments run_cases {G}.
Arguments run_suites {G}.
Arguments test_runner_run {G}.

(** ** unittest.c: releasing the structures *)

(** A heap block handed to [free]: the copy of a name made by [strdup],
    the result array of a case, or one of the three structs, told apart
    by the name it carries. *)
Inductive block : Type :=
| Block_name (name : string)
| Block_results (a : list slot)
| Block_case (name : string)
| Block_suite (name : string)
| Block_runner.

(** [free(p)]: nothing for the null pointer, else the block is released. *)
Definition free (p : option block) : list block := option_list p.

(** The destroy functions return nothing and only release memory: each is
    modelled by the blocks it releases, in the order of its calls to
    [free].  [test_case_destroy] releases the name, the result array and
    the struct. *)
Definition test_case_destroy (test_case : case_ptr) : list block :=
  match test_case with
  | NULL_case => []
  | Case c =>
      free (Some (Block_name (case_name c))) ++
      free (Block_results <$> results c) ++
      free (Some (Block_case (case_name c)))
  end.

(** [test_case_destroy_siblings]: the loop saves [next], clears it in the
    struct and destroys the struct. *)
Fixpoint test_case_destroy_siblings (test_case : case_ptr) : list block :=
  match test_case with
  | NULL_case => []
  | Case c =>
      let next := case_next c in
      test_case_destroy (Case (set_case_next c NULL_case)) ++
      test_case_destroy_siblings next
  end.

(** [test_suite_destroy] past its null check, and
    [test_suite_destroy_siblings].  The loop clears [suite->next] before
    it calls [test_suite_destroy]; as that function never reads [next],
    the call is made here on the struct as it is
    ([test_suite_destroy_at_unlinked] below). *)
Fixpoint test_suite_destroy_at (suite : test_suite) : list block :=
  (if is_null_case (test_cases suite) then []
   else test_case_destroy_siblings (test_cases suite)) ++
  (if is_null_suite (child_suites suite) then []
   else test_suite_destroy_siblings (child_suites suite)) ++
  free (Some (Block_name (suite_name suite))) ++
  free (Some (Block_suite (suite_name suite)))
with test_suite_destroy_siblings (suite : suite_ptr) : list block :=
  match suite with
  | NULL_suite => []
  | Suite s =>
      let next := suite_next s in
      test_suite_destroy_at s ++ test_suite_destroy_siblings next
  end.

Definition test_suite_destroy (suite : suite_ptr) : list block :=
  match suite with
  | NULL_suite => []
  | Suite s => test_suite_destroy_at s
  end.

Definition test_runner_destroy (runner : option test_runner) : list block :=
  match runner with
  | None => []
  | Some r =>
      (if is_null_suite (root_suite r) then []
       else test_suite_destroy_siblings (root_suite r)) ++
      free (Some Block_runner)
  end.

(** * Specification *)

(** ** Test cases *)

(** The outcome log of a case: what was written to the first
    [result_count] slots of its array, in slot order. *)
Definition outcomes (c : test_case) : list test_status_t :=
  omap id (take (Z.to_nat (result_count c)) (slots c)).

(** The invariant of the result array: the count is between zero and the
    capacity, both are values of [int], and the array has exactly
    [result_capacity] slots. *)
Definition case_inv (c : test_case) : Prop :=
  0 <= result_count c <= result_capacity c /\
  result_capacity c <= INT_MAX /\
  Z.of_nat (length (slots c)) = result_capacity c.

(** What one call of [test_case_add_result] may do to the capacity. *)
Definition capacity_step (before after : Z) : Prop :=
  after = before \/
  (before = 0 /\ after = INITIAL_RESULT_CAPACITY) \/
  (before <> 0 /\ after = 2 * before).

(** The appends of a batch one by one, every one of them successful:
    from the struct [c] and allocator state [m] they lead to [c'] and [m']. *)
Inductive appended : test_case -> allocator -> list test_status_t ->
                     test_case -> allocator -> Prop :=
| appended_nil c m : appended c m [] c m
| appended_cons c m status c1 m1 rest c2 m2 :
    test_case_add_result (Case c) status m = (0, Case c1, m1) ->
    appended c1 m1 rest c2 m2 ->
    appended c m (status :: rest) c2 m2.

(** The structs the public operations can produce from a created case. *)
Inductive reachable_case : test_case -> Prop :=
| reach_create name f m c m' :
    test_case_create name f m = (Case c, m') -> reachable_case c
| reach_add_result c status m r c' m' :
    reachable_case c ->
    test_case_add_result (Case c) status m = (r, Case c', m') ->
    reachable_case c'
| reach_add_results_va c count args m r c' m' :
    reachable_case c ->
    test_case_add_results_va (Case c) count args m = (r, Case c', m') ->
    reachable_case c'
| reach_link c x :
    reachable_case c -> reachable_case (set_case_next c x)
| reach_run (G : Type) (code : test_func_t -> G -> test_status_t * G) c w c' w' :
    reachable_case c -> run_case code c w = (c', w') -> reachable_case c'.

(** ** Chains as lists *)

(** The structs of a chain in link order, each taken by itself (its own
    [next] cleared). *)
Fixpoint suite_list (p : suite_ptr) : list test_suite :=
  match p with
  | NULL_suite => []
  | Suite s => set_suite_next s NULL_suite :: suite_list (suite_next s)
  end.

Fixpoint case_list (p : case_ptr) : list test_case :=
  match p with
  | NULL_case => []
  | Case c => set_case_next c NULL_case :: case_list (case_next c)
  end.

(** ** Statistics *)

(** The outcomes recorded in the cases of a chain, and in the subtree of
    a suite: its own cases, then the subtrees of its child suites. *)
Fixpoint case_chain_outcomes (p : case_ptr) : list test_status_t :=
  match p with
  | NULL_case => []
  | Case c => outcomes c ++ case_chain_outcomes (case_next c)
  end.

Fixpoint subtree_outcomes (s : test_suite) : list test_status_t :=
  case_chain_outcomes (test_cases s) ++ chain_outcomes (child_suites s)
with chain_outcomes (p : suite_ptr) : list test_status_t :=
  match p with
  | NULL_suite => []
  | Suite s => subtree_outcomes s ++ chain_outcomes (suite_next s)
  end.

(** The suites of a tree: the root, then those of its child suites. *)
Fixpoint suites_of (s : test_suite) : list test_suite :=
  s :: chain_suites (child_suites s)
with chain_suites (p : suite_ptr) : list test_suite :=
  match p with
  | NULL_suite => []
  | Suite s => suites_of s ++ chain_suites (suite_next s)
  end.

Definition tree_suites (root : suite_ptr) : list test_suite :=
  match root with
  | NULL_suite => []
  | Suite s => suites_of s
  end.

(** The suites that follow a suite in its chain. *)
Definition following (p : suite_ptr) : suite_ptr :=
  match p with
  | NULL_suite => NULL_suite
  | Suite s => suite_next s
  end.

Definition tree_outcomes (root : suite_ptr) : list test_status_t :=
  match root with
  | NULL_suite => []
  | Suite s => subtree_outcomes s
  end.

(** How many outcomes of kind [k] a list holds. *)
Definition count_of (k : test_status_t) (l : list test_status_t) : Z :=
  Z.of_nat (length (filter (fun s => s = k) l)).

(** The six kinds of outcome: the enumerators of [test_status_t]. *)
Definition is_status (k : test_status_t) : Prop :=
  STATUS_SUCCESS <= k <= STATUS_RUNTIME_ERROR.

#[global] Instance is_status_dec (k : test_status_t) : Decision (is_status k).
Proof. unfold is_status. apply _. Defined.

(** The counter of [test_stats_t] that belongs to kind [k]; there is none
    for a value that is not an enumerator. *)
Definition stat (k : test_status_t) (st : test_stats_t) : Z :=
  match k with
  | STATUS_SUCCESS => success_count st
  | STATUS_UNEXPECTED_OUTPUT => unexpected_output_count st
  | STATUS_EXPECTED_BUILD_ERROR => expected_build_error_count st
  | STATUS_BUILD_ERROR => build_error_count st
  | STATUS_EXPECTED_RUNTIME_ERROR => expected_runtime_error_count st
  | STATUS_RUNTIME_ERROR => runtime_error_count st
  | _ => 0
  end.

(** The six counters together. *)
Definition total (st : test_stats_t) : Z :=
  success_count st + unexpected_output_count st +
  expected_build_error_count st + build_error_count st +
  expected_runtime_error_count st + runtime_error_count st.

(** A suite's statistics are up to date, as far as [int] can tell: each
    of the six counters holds the number of outcomes of its kind in the
    subtree. *)
Definition stats_fresh (s : test_suite) : Prop :=
  forall k, is_status k ->
    stat k (stats s) = to_int (count_of k (subtree_outcomes s)).

(** ** The report *)

(** A tree with every [stats] field zeroed: what is left is names, cases
    with their logs, and shape. *)
Fixpoint clear_stats_at (s : test_suite) : test_suite :=
  mk_suite (suite_name s) (test_cases s) (clear_stats (child_suites s))
           (clear_stats (suite_next s)) zero_stats
with clear_stats (p : suite_ptr) : suite_ptr :=
  match p with
  | NULL_suite => NULL_suite
  | Suite s => Suite (clear_stats_at s)
  end.

(** The suites a runner holds, at every depth. *)
Definition runner_suites (runner : option test_runner) : list test_suite :=
  match runner with
  | None => []
  | Some r => chain_suites (root_suite r)
  end.

Definition runner_root (runner : option test_runner) : suite_ptr :=
  match runner with
  | None => NULL_suite
  | Some r => root_suite r
  end.

Definition root_stats (runner : option test_runner) : option test_stats_t :=
  match runner_root runner with
  | NULL_suite => None
  | Suite s => Some (stats s)
  end.

(** ** The run *)

(** The cases owned directly by the suites of the runner's list. *)
Fixpoint top_cases (p : suite_ptr) : list test_case :=
  match p with
  | NULL_suite => []
  | Suite s => case_list (test_cases s) ++ top_cases (suite_next s)
  end.

(** The cases of a subtree, and those owned by child suites, at any
    depth, of the suites of the runner's list. *)
Fixpoint subtree_cases (s : test_suite) : list test_case :=
  case_list (test_cases s) ++ chain_cases (child_suites s)
with chain_cases (p : suite_ptr) : list test_case :=
  match p with
  | NULL_suite => []
  | Suite s => subtree_cases s ++ chain_cases (suite_next s)
  end.

Fixpoint below_top (p : suite_ptr) : list test_case :=
  match p with
  | NULL_suite => []
  | Suite s => chain_cases (child_suites s) ++ below_top (suite_next s)
  end.

(** The function a run calls for a case: the case's own, when it has one
    and its log is empty. *)
Definition due (c : test_case) : option test_func_t :=
  match test_func c with
  | Some f => if result_count c =? 0 then Some f else None
  | None => None
  end.

(** A case before and after a run in which every append was granted:
    untouched when no call was due, else holding the one outcome its
    function returned. *)
Definition ran_granted {G : Type} (code : test_func_t -> G -> test_status_t * G)
    (c c' : test_case) : Prop :=
  match due c with
  | None => c' = c
  | Some f => exists g, outcomes c' = [fst (code f g)]
  end.

(** The same when appends may be refused: a case whose append was
    refused is left as it was. *)
Definition ran {G : Type} (code : test_func_t -> G -> test_status_t * G)
    (c c' : test_case) : Prop :=
  match due c with
  | None => c' = c
  | Some f => (exists g, outcomes c' = [fst (code f g)]) \/ c' = c
  end.

(** The logs a run leaves, for a list of cases visited in order from the
    state [g] of the test functions and the state [m] of the allocator.
    A case that is not due keeps its log.  A due case has its function
    called on the state the calls before it left.  Its log is empty, so
    the append asks for memory exactly when the case has no array yet
    (capacity 0), and then the allocator's answer decides: granted, the
    case holds the status returned; refused, it holds nothing. *)
Fixpoint run_outcomes {G : Type} (code : test_func_t -> G -> test_status_t * G)
    (g : G) (m : allocator) (cs : list test_case) : list (list test_status_t) :=
  match cs with
  | [] => []
  | c :: cs' =>
      match due c with
      | None => outcomes c :: run_outcomes code g m cs'
      | Some f =>
          let status := fst (code f g) in
          let g' := snd (code f g) in
          if 0 <? result_capacity c
          then [status] :: run_outcomes code g' m cs'
          else (if fst (grant m) then [status] else [])
               :: run_outcomes code g' (snd (grant m)) cs'
      end
  end.

(** ** What the report shows *)

(** [x] is a piece of the text [s]. *)
Definition occurs (x s : string) : Prop :=
  exists pre post, s = pre +:+ x +:+ post.

(** The line of a case in the report, after the tree glyphs: its name
    and its outcomes in log order. *)
Definition case_line (c : test_case) : string :=
  case_name c +:+ ": " +:+ print_results c +:+ NL.

(** ** Sample structures *)

(** A case as [test_case_create] returns it, and the same case after
    eight appends. *)
Definition fresh_case : test_case :=
  mk_case "Overflow" (Some 1%positive) None 0 0 NULL_case.

Definition full_case : test_case :=
  mk_case "Overflow" (Some 1%positive)
    (Some (replicate 8 (Some STATUS_SUCCESS))) 8 8 NULL_case.

Definition math_suite : test_suite :=
  mk_suite "Math" (Case fresh_case) NULL_suite NULL_suite
           (mk_stats 0 0 0 0 0 0).
Definition edge_suite : test_suite :=
  mk_suite "Edge" (Case full_case) NULL_suite NULL_suite
           (mk_stats 0 0 0 0 0 0).

(** The scenario of the specification: suite Math with case Add, and
    under it suite Edge with case Overflow; the results are already in
    the logs. *)
Definition overflow_case : test_case :=
  mk_case "Overflow" (Some 2%positive)
    (Some (Some STATUS_BUILD_ERROR :: replicate 7 None)) 1 8 NULL_case.
Definition add_case : test_case :=
  mk_case "Add" (Some 1%positive)
    (Some (Some STATUS_SUCCESS :: replicate 7 None)) 1 8 NULL_case.
Definition edge_tree : test_suite :=
  mk_suite "Edge" (Case overflow_case) NULL_suite NULL_suite zero_stats.
Definition math_tree : test_suite :=
  mk_suite "Math" (Case add_case) (Suite edge_tree) NULL_suite zero_stats.

(** A case that was given a value that is none of the enumerators: the
    created case after [test_case_add_results_va(c, 2, STATUS_SUCCESS, 99)];
    and a suite that owns it. *)
Definition odd_case : test_case :=
  mk_case "Overflow" (Some 1%positive)
    (Some (Some STATUS_SUCCESS :: Some 99 :: replicate 6 None)) 2 8 NULL_case.
Definition odd_tree : test_suite :=
  mk_suite "Odd" (Case odd_case) NULL_suite NULL_suite zero_stats.

(** A runner whose statistics were never computed: the tree of the
    scenario, with zeroed [stats] and results in the logs. *)
Definition stale_runner : option test_runner :=
  Some (mk_runner (Suite math_tree) zero_stats).

(** The scenario of the specification before any run: Math owns case
    Add, whose function (address 1) returns Success; its child suite Edge
    owns case Overflow, whose function (address 2) returns BuildError. *)
Definition scenario_code (f : test_func_t) (g : unit) : test_status_t * unit :=
  (if (f =? 1)%positive then STATUS_SUCCESS else STATUS_BUILD_ERROR, g).

Definition scenario_runner : test_runner :=
  mk_runner
    (Suite (mk_suite "Math"
              (Case (mk_case "Add" (Some 1%positive) None 0 0 NULL_case))
              (Suite (mk_suite "Edge"
                        (Case (mk_case "Overflow" (Some 2%positive) None 0 0 NULL_case))
                        NULL_suite NULL_suite zero_stats))
              NULL_suite zero_stats))
    zero_stats.

(** Test functions that share a flag: each call returns Success when
    the flag is down and RuntimeError when it is up, and flips it.  A
    runner with one suite that owns four cases: A, B and D with such a
    function and an empty log, C with a function and a recorded outcome.
    A world whose flag is down and whose allocator grants the first
    request, refuses the second and grants the rest. *)
Definition flip_code (f : test_func_t) (flag : bool) : test_status_t * bool :=
  (if flag then STATUS_RUNTIME_ERROR else STATUS_SUCCESS, negb flag).

Definition flip_runner : test_runner :=
  mk_runner
    (Suite (mk_suite "Flip"
              (Case (mk_case "A" (Some 1%positive) None 0 0
              (Case (mk_case "B" (Some 2%positive) None 0 0
              (Case (mk_case "C" (Some 3%positive)
                       (Some (Some STATUS_BUILD_ERROR :: replicate 7 None)) 1 8
              (Case (mk_case "D" (Some 4%positive) None 0 0 NULL_case))))))))
              NULL_suite NULL_suite zero_stats))
    zero_stats.

Definition flip_world : world bool :=
  mk_world [true; false] false [] EmptyString EmptyString.

(** A world whose allocator grants everything, and one whose allocator
    refuses the first request. *)
Definition granting_world : world unit := mk_world [] tt [] EmptyString EmptyString.
Definition refusing_world : world unit := mk_world [false] tt [] EmptyString EmptyString.

(** * Further specification *)

(** ** The result array *)

(** A capacity [test_case_add_result] can have produced: none yet, or
    the initial one doubled some number of times. *)
Definition capacity_shape (c : test_case) : Prop :=
  (result_capacity c = 0 \/ exists k : nat, result_capacity c = 8 * 2 ^ Z.of_nat k) /\
  (result_capacity c <= 8 \/ result_capacity c < 2 * result_count c) /\
  (results c = None <-> result_capacity c = 0).

(** What [print_tree_node] prints for one recorded outcome, and for a
    log. *)
Definition glyph (status : test_status_t) : string :=
  get_status_color (Some status) +:+
  String (get_status_char (Some status)) EmptyString +:+ ANSI_RESET +:+ " ".

Fixpoint glyphs (l : list test_status_t) : string :=
  match l with
  | [] => EmptyString
  | status :: l' => glyph status +:+ glyphs l'
  end.

(** The words of the legend for a status. *)
Definition meaning (status : test_status_t) : string :=
  match status with
  | STATUS_SUCCESS => "success"
  | STATUS_UNEXPECTED_OUTPUT => "unexpected output"
  | STATUS_EXPECTED_BUILD_ERROR => "expected build error"
  | STATUS_BUILD_ERROR => "build error"
  | STATUS_EXPECTED_RUNTIME_ERROR => "expected runtime error"
  | STATUS_RUNTIME_ERROR => "runtime error"
  | _ => EmptyString
  end.

(** The entry of a status in the legend: its letter in its colour, a
    dash, and its meaning. *)
Definition legend_entry (status : test_status_t) : string :=
  get_status_color (Some status) +:+
  String (get_status_char (Some status)) EmptyString +:+ ANSI_RESET +:+
  " - " +:+ meaning status.

(** A decision procedure for [occurs]. *)
Fixpoint starts_with (x s : string) : bool :=
  match x, s with
  | EmptyString, _ => true
  | String a x', String b s' => Ascii.eqb a b && starts_with x' s'
  | String _ _, EmptyString => false
  end.

Fixpoint occurs_in (x s : string) : bool :=
  starts_with x s ||
  match s with
  | EmptyString => false
  | String _ s' => occurs_in x s'
  end.

(** ** Sample structures for the further properties *)

(** The runner of [stale_runner] with other leftovers in its [stats]
    fields. *)
Definition garbled_runner : test_runner :=
  mk_runner
    (Suite (mk_suite "Math" (Case add_case)
              (Suite (mk_suite "Edge" (Case overflow_case) NULL_suite NULL_suite
                               (mk_stats 7 7 7 7 7 7)))
              NULL_suite (mk_stats 1 2 3 4 5 6)))
    zero_stats.

Definition tidy_runner : test_runner := mk_runner (Suite math_tree) zero_stats.

(** The line of a suite in the report, after prefix and tree glyphs:
    its name, [pad] spaces, and its six counters. *)
Definition suite_line (s : test_suite) (pad : nat) : string :=
  suite_name s +:+ spaces pad +:+ print_stats (stats s) +:+ NL.

(** The statistics of a suite's subtree: for each kind, the number of
    outcomes of that kind recorded in it, as an [int]. *)
Definition counted (s : test_suite) : test_stats_t :=
  mk_stats (to_int (count_of STATUS_SUCCESS (subtree_outcomes s)))
           (to_int (count_of STATUS_UNEXPECTED_OUTPUT (subtree_outcomes s)))
           (to_int (count_of STATUS_EXPECTED_BUILD_ERROR (subtree_outcomes s)))
           (to_int (count_of STATUS_BUILD_ERROR (subtree_outcomes s)))
           (to_int (count_of STATUS_EXPECTED_RUNTIME_ERROR (subtree_outcomes s)))
           (to_int (count_of STATUS_RUNTIME_ERROR (subtree_outcomes s))).

(** The line the report owes a suite: its name, [pad] spaces, and the
    statistics of its subtree. *)
Definition counted_line (s : test_suite) (pad : nat) : string :=
  suite_name s +:+ spaces pad +:+ print_stats (counted s) +:+ NL.

(** ** The run, in full *)

(** The warning a run writes for a case whose append was refused: a call
    was due and the case is still without outcome afterwards. *)
Definition warning (c c' : test_case) : string :=
  match due c with
  | Some _ =>
      if result_count c' =? 0
      then "Warning: Failed to add test result for " +:+ case_name c +:+ NL
      else EmptyString
  | None => EmptyString
  end.

(** The warnings for a list of cases before and after a run. *)
Fixpoint warnings (cs cs' : list test_case) : string :=
  match cs, cs' with
  | c :: l, c' :: l' => warning c c' +:+ warnings l l'
  | _, _ => EmptyString
  end.

(** The logs a run leaves when every append is granted, for a list of
    cases visited in order from the state [g] of the test functions:
    a case that is due gets the status its function returns on the
    state the calls before it left. *)
Fixpoint run_logs {G : Type} (code : test_func_t -> G -> test_status_t * G)
    (g : G) (cs : list test_case) : list (list test_status_t) :=
  match cs with
  | [] => []
  | c :: cs' =>
      match due c with
      | Some f => [fst (code f g)] :: run_logs code (snd (code f g)) cs'
      | None => outcomes c :: run_logs code g cs'
      end
  end.

(** ** Releasing the structures *)

(** The blocks a case owns, and those of a suite by itself. *)
Definition case_blocks (c : test_case) : list block :=
  Block_name (case_name c) ::
  match results c with
  | Some a => [Block_results a; Block_case (case_name c)]
  | None => [Block_case (case_name c)]
  end.

Definition suite_blocks (s : test_suite) : list block :=
  [Block_name (suite_name s); Block_suite (suite_name s)].

(** The blocks of the cases and of the suites of a list. *)
Definition blocks_of (cs : list test_case) (ss : list test_suite) : list block :=
  (cs ≫= case_blocks) ++ (ss ≫= suite_blocks).

(** ** What a run leaves alone *)

(** A chain of cases with every log emptied, and a chain of suites with
    the logs of the cases they own directly emptied: what is left is the
    names, the test functions, the order, and the child suites with all
    they hold. *)
Fixpoint blank_cases (p : case_ptr) : case_ptr :=
  match p with
  | NULL_case => NULL_case
  | Case c =>
      Case (mk_case (case_name c) (test_func c) None 0 0 (blank_cases (case_next c)))
  end.

Fixpoint blank_top (p : suite_ptr) : suite_ptr :=
  match p with
  | NULL_suite => NULL_suite
  | Suite s =>
      Suite (mk_suite (suite_name s) (blank_cases (test_cases s)) (child_suites s)
               (blank_top (suite_next s)) (stats s))
  end.

(** ** Reading the statistics back *)

(** The character [a] is nowhere in the text [s]. *)
Fixpoint lacks (a : ascii) (s : string) : Prop :=
  match s with
  | EmptyString => True
  | String b s' => b <> a /\ lacks a s'
  end.

(** * Proofs *)

(** ** Test cases *)

Lemma to_int_id z : -2147483648 <= z <= INT_MAX -> to_int z = z.
Proof.
  unfold to_int, INT_MAX. intros H.
  rewrite Z.mod_small by lia. lia.
Qed.

Lemma realloc_granted ptr size m a m' :
  realloc ptr size m = (Some a, m') ->
  size <= PTRDIFF_MAX /\
  a = resize (Z.to_nat (size / sizeof_test_status_t)) None (default [] ptr).
Proof.
  unfold realloc. destruct (PTRDIFF_MAX <? size) eqn:E; [done|].
  apply Z.ltb_ge in E. destruct (grant m) as [[] m1]; [|done].
  intros [= <- <-]. done.
Qed.

(** The byte count [test_case_add_result] asks for when the capacity is
    positive and doubling it stays an [int]. *)
Lemma double_request cap :
  0 < cap -> 2 * cap <= INT_MAX ->
  to_int (cap * 2) = 2 * cap /\
  to_size_t (to_size_t (to_int (cap * 2)) * sizeof_test_status_t) = 8 * cap.
Proof.
  unfold INT_MAX. intros H1 H2.
  rewrite to_int_id by (unfold INT_MAX; lia).
  unfold to_size_t, sizeof_test_status_t.
  rewrite (Z.mod_small (cap * 2)) by lia.
  rewrite Z.mod_small by lia. lia.
Qed.

(** When doubling leaves the range of [int], the byte count asked for is
    above [PTRDIFF_MAX]. *)
Lemma double_request_overflow cap :
  INT_MAX < 2 * cap -> cap <= INT_MAX ->
  PTRDIFF_MAX < to_size_t (to_size_t (to_int (cap * 2)) * sizeof_test_status_t).
Proof.
  unfold INT_MAX, PTRDIFF_MAX. intros H1 H2.
  assert (Hi : to_int (cap * 2) = 2 * cap - 4294967296).
  { unfold to_int.
    replace (cap * 2 + 2147483648) with
      (2 * cap - 2147483648 + 1 * 4294967296) by lia.
    rewrite Z.mod_add by lia. rewrite Z.mod_small by lia. lia. }
  rewrite Hi. unfold to_size_t, sizeof_test_status_t.
  replace (2 * cap - 4294967296) with
    (2 * cap - 4294967296 + 18446744073709551616 + (-1) * 18446744073709551616) by lia.
  rewrite Z.mod_add by lia.
  rewrite (Z.mod_small (2 * cap - 4294967296 + 18446744073709551616)) by lia.
  replace ((2 * cap - 4294967296 + 18446744073709551616) * 4) with
    (8 * cap - 17179869184 + 18446744073709551616 + 3 * 18446744073709551616) by lia.
  rewrite Z.mod_add by lia. rewrite Z.mod_small by lia. lia.
Qed.

Lemma push_result_fields c status :
  case_name (push_result c status) = case_name c /\
  test_func (push_result c status) = test_func c /\
  result_capacity (push_result c status) = result_capacity c /\
  case_next (push_result c status) = case_next c /\
  result_count (push_result c status) = to_int (result_count c + 1) /\
  results (push_result c status) = store (results c) (result_count c) status.
Proof. by destruct c. Qed.

(** A store into a slot that exists, at the end of the log. *)
Lemma push_result_ok c status :
  0 <= result_count c < result_capacity c ->
  result_capacity c <= INT_MAX ->
  Z.of_nat (length (slots c)) = result_capacity c ->
  case_inv (push_result c status) /\
  outcomes (push_result c status) = outcomes c ++ [status] /\
  result_count (push_result c status) = result_count c + 1.
Proof.
  intros Hk Hcap Hlen.
  destruct c as [n f r k cap x]. unfold slots in Hlen. simpl in *.
  destruct r as [a|]; simpl in Hlen; [|lia].
  assert (Hk1 : to_int (k + 1) = k + 1) by (apply to_int_id; unfold INT_MAX in *; lia).
  unfold case_inv, outcomes, push_result, slots, store. simpl.
  destruct (k <? 0) eqn:E; [apply Z.ltb_lt in E; lia|]. simpl.
  rewrite Hk1, length_insert.
  split; [lia|]. split; [|done].
  replace (Z.to_nat (k + 1)) with (S (Z.to_nat k)) by lia.
  rewrite (take_S_r _ _ (Some status)).
  - rewrite take_insert_ge by lia. by rewrite omap_app.
  - apply list_lookup_insert_eq. lia.
Qed.

(** The struct after a granted [realloc] to [new_capacity] slots, before
    the store: same log, room for one more outcome. *)
Lemma grown_case c new_capacity :
  case_inv c -> result_count c = result_capacity c ->
  result_capacity c < new_capacity <= INT_MAX ->
  let c2 := set_result_capacity
              (set_results c (Some (resize (Z.to_nat new_capacity) None (slots c))))
              new_capacity in
  0 <= result_count c2 < result_capacity c2 /\
  result_capacity c2 = new_capacity /\
  Z.of_nat (length (slots c2)) = result_capacity c2 /\
  outcomes c2 = outcomes c /\ result_count c2 = result_count c.
Proof.
  intros (Hk & Hcap & Hlen) Hfull Hnew.
  destruct c as [n f r k cap x]. unfold outcomes, slots in *. simpl in *.
  subst k. rewrite length_resize.
  repeat split; try lia.
  rewrite take_resize_le by lia.
  by rewrite resize_le by lia.
Qed.

(** Every way [test_case_add_result] can end on a struct that satisfies
    the invariant: refused and untouched, or one outcome longer. *)
Lemma add_result_at_inv c status m r c' m' :
  case_inv c ->
  add_result_at c status m = (r, c', m') ->
  case_inv c' /\
  capacity_step (result_capacity c) (result_capacity c') /\
  ((r = -1 /\ c' = c) \/
   (r = 0 /\ outcomes c' = outcomes c ++ [status] /\
    result_count c' = result_count c + 1)).
Proof.
  intros Hinv. pose proof Hinv as (Hk & Hcap & Hlen).
  unfold add_result_at.
  destruct (result_capacity c <=? result_count c) eqn:Efull.
  - apply Z.leb_le in Efull.
    assert (Hfull : result_count c = result_capacity c) by lia.
    destruct (realloc _ _ m) as [[a|] m1] eqn:Ere.
    + intros [= <- <- <-].
      apply realloc_granted in Ere as [Hsize ->].
      assert (Hnew : result_capacity c < new_capacity c <= INT_MAX /\
                Z.to_nat (new_size c / sizeof_test_status_t)
                = Z.to_nat (new_capacity c) /\
                capacity_step (result_capacity c) (new_capacity c)).
      { unfold new_size, new_capacity, capacity_step in *.
        destruct (result_capacity c =? 0) eqn:E0.
        - apply Z.eqb_eq in E0. rewrite E0.
          unfold INITIAL_RESULT_CAPACITY, INT_MAX. split; [lia|]. split; [done|]. lia.
        - apply Z.eqb_neq in E0.
          destruct (Z_le_gt_dec (2 * result_capacity c) INT_MAX) as [Hd|Hd].
          + destruct (double_request (result_capacity c)) as [H1 H2]; [lia|lia|].
            rewrite H2, H1. unfold sizeof_test_status_t.
            replace (8 * result_capacity c) with (2 * result_capacity c * 4) by lia.
            rewrite Z.div_mul by lia. split; [lia|]. split; [done|]. lia.
          + exfalso.
            pose proof (double_request_overflow (result_capacity c)). lia. }
      destruct Hnew as (Hnew & -> & Hstep).
      destruct (grown_case c (new_capacity c) Hinv Hfull Hnew)
        as (Hk2 & Hcap2 & Hlen2 & Hout2 & Hcnt2).
      destruct (push_result_ok _ status Hk2) as (Hinv3 & Hout3 & Hcnt3);
        [lia | done |].
      split; [done|]. split.
      { destruct (push_result_fields
          (set_result_capacity (set_results c
             (Some (resize (Z.to_nat (new_capacity c)) None (default [] (results c)))))
             (new_capacity c)) status) as (_ & _ & -> & _).
        fold (slots c). by rewrite Hcap2. }
      right. split; [done|]. fold (slots c). rewrite Hout3, Hcnt3, Hout2, Hcnt2. done.
    + intros [= <- <- <-]. split; [done|]. split; [by left|]. by left.
  - apply Z.leb_gt in Efull. intros [= <- <- <-].
    destruct (push_result_ok c status) as (Hinv3 & Hout3 & Hcnt3); [lia|done|done|].
    split; [done|]. split.
    { destruct (push_result_fields c status) as (_ & _ & -> & _). by left. }
    right. done.
Qed.

(** Failure of [test_case_add_result], with or without the invariant:
    exactly when the count has reached the capacity and [realloc]
    returned null; the struct is then returned as it was. *)
Lemma add_result_at_failure c status m r c' m' :
  add_result_at c status m = (r, c', m') ->
  (r = 0 \/ r = -1) /\
  (r = -1 <->
   result_capacity c <= result_count c /\
   realloc (results c) (new_size c) m = (None, m')) /\
  (r = -1 -> c' = c).
Proof.
  unfold add_result_at.
  destruct (result_capacity c <=? result_count c) eqn:Efull.
  - apply Z.leb_le in Efull.
    destruct (realloc _ _ m) as [[a|] m1] eqn:Ere; intros [= <- <- <-].
    + split; [by left|]. split; [|done]. split; [done|]. by intros [_ ?].
    + split; [by right|]. split; [|done]. split; [done|]. by intros _.
  - apply Z.leb_gt in Efull. intros [= <- <- <-].
    split; [by left|]. split; [|done]. split; [done|]. intros [? _]. lia.
Qed.

Lemma add_result_unfold c status m :
  test_case_add_result (Case c) status m =
  let '(r, c', m') := add_result_at c status m in (r, Case c', m').
Proof. done. Qed.

(** A call through a pointer that is not null is [add_result_at] on its
    target. *)
Lemma add_result_cases c status m r p m' :
  test_case_add_result (Case c) status m = (r, p, m') ->
  exists c', p = Case c' /\ add_result_at c status m = (r, c', m').
Proof.
  rewrite add_result_unfold.
  destruct (add_result_at c status m) as [[r0 c0] m0].
  intros [= <- <- <-]. eauto.
Qed.

(** With an allocator that grants every request, an append succeeds as
    long as the array has room or doubling its capacity stays an [int]. *)
Lemma add_result_at_granted c status m :
  case_inv c -> Forall (eq true) m ->
  result_count c < result_capacity c \/ 2 * result_capacity c <= INT_MAX ->
  exists c' m', add_result_at c status m = (0, c', m') /\ Forall (eq true) m'.
Proof.
  intros (Hk & Hcap & Hlen) Hm Hroom. unfold add_result_at.
  destruct (result_capacity c <=? result_count c) eqn:Efull; [|eauto].
  apply Z.leb_le in Efull.
  assert (Hsize : new_size c <= PTRDIFF_MAX).
  { unfold new_size, new_capacity. destruct (result_capacity c =? 0) eqn:E0.
    - vm_compute. discriminate.
    - apply Z.eqb_neq in E0.
      destruct (double_request (result_capacity c)) as [_ ->]; [lia|lia|].
      unfold PTRDIFF_MAX, INT_MAX in *. lia. }
  unfold realloc.
  destruct (PTRDIFF_MAX <? new_size c) eqn:E; [apply Z.ltb_lt in E; lia|].
  destruct m as [|b m1]; simpl;
    [eauto | apply Forall_cons in Hm as [<- Hm]; eauto].
Qed.

Lemma appended_outcomes c m sts c' m' :
  appended c m sts c' m' -> case_inv c ->
  case_inv c' /\ outcomes c' = outcomes c ++ sts.
Proof.
  induction 1 as [c m | c m status c1 m1 rest c2 m2 Hadd Hrest IH]; intros Hinv.
  - by rewrite app_nil_r.
  - apply add_result_cases in Hadd as (c1' & [= <-] & Hadd).
    destruct (add_result_at_inv _ _ _ _ _ _ Hinv Hadd) as (Hinv1 & _ & [[? _]|(_ & Hout & _)]);
      [lia|].
    destruct (IH Hinv1) as [Hinv2 Hout2]. split; [done|].
    rewrite Hout2, Hout. by rewrite <- app_assoc.
Qed.

Lemma add_results_loop_stops c m pre c1 m1 status post r p m2 :
  appended c m pre c1 m1 ->
  test_case_add_result (Case c1) status m1 = (r, p, m2) -> r <> 0 ->
  add_results_loop (length (pre ++ status :: post)) (pre ++ status :: post) (Case c) m
  = (-1, Case c1, m2).
Proof.
  intros Happ Hfail Hr.
  induction Happ as [c m | c m st c1 m1 rest c3 m3 Hadd Hrest IH].
  - cbn [add_results_loop length app]. rewrite Hfail.
    apply add_result_cases in Hfail as (c' & -> & Hfail).
    apply add_result_at_failure in Hfail as ([?|Hm1] & _ & Hsame); [done|].
    rewrite (Hsame Hm1). destruct r as [|?|?]; done.
  - cbn [add_results_loop length app]. rewrite Hadd. by apply IH.
Qed.

Lemma create_inv name f m c m' :
  test_case_create name f m = (Case c, m') ->
  result_count c = 0 /\ result_capacity c = 0 /\ case_inv c.
Proof.
  unfold test_case_create.
  destruct (grant m) as [[] m1]; simpl; [|done].
  destruct (grant m1) as [[] m2]; simpl; [|done].
  intros [= <- <-]. unfold case_inv, INT_MAX. simpl. lia.
Qed.

Lemma add_results_loop_inv n : forall args c m r p m',
  case_inv c ->
  add_results_loop n args (Case c) m = (r, p, m') ->
  exists c', p = Case c' /\ case_inv c'.
Proof.
  induction n as [|n IH]; intros args c m r p m' Hinv; simpl.
  - intros [= <- <- <-]. eauto.
  - destruct args as [|status args]; [intros [= <- <- <-]; eauto|].
    destruct (add_result_at c status m) as [[r1 c1] m1] eqn:Hadd.
    destruct (add_result_at_inv _ _ _ _ _ _ Hinv Hadd) as (Hinv1 & _ & _).
    destruct r1; [by apply IH | intros [= <- <- <-]; eauto ..].
Qed.

Lemma run_case_inv (G : Type) (code : test_func_t -> G -> test_status_t * G) c w c' w' :
  case_inv c -> run_case code c w = (c', w') -> case_inv c'.
Proof.
  intros Hinv. unfold run_case.
  destruct (test_func c) as [f|]; [|by intros [= <- <-]].
  destruct (result_count c =? 0); [|by intros [= <- <-]].
  destruct (code f (w_user w)) as [result g].
  destruct (add_result_at c result (w_alloc w)) as [[r c1] m] eqn:Hadd.
  intros [= <- <-].
  by destruct (add_result_at_inv _ _ _ _ _ _ Hinv Hadd) as (? & _).
Qed.

Lemma reachable_case_inv c : reachable_case c -> case_inv c.
Proof.
  induction 1 as [name f m c m' Hc | c status m r c' m' _ IH Hadd
                 | c count args m r c' m' _ IH Hva | c x _ IH
                 | G code c w c' w' _ IH Hrun].
  - by apply create_inv in Hc as (_ & _ & ?).
  - apply add_result_cases in Hadd as (c1 & [= <-] & Hadd).
    by destruct (add_result_at_inv _ _ _ _ _ _ IH Hadd) as (? & _).
  - unfold test_case_add_results_va in Hva.
    destruct (count <=? 0); [by injection Hva as _ <- _|].
    apply add_results_loop_inv in Hva as (c1 & [= <-] & ?); done.
  - by destruct c.
  - by eapply run_case_inv.
Qed.

(** C5: [test_case_add_result] on a case answers 0 or -1.  It answers -1
    exactly when the count has reached the capacity (the growth path) and
    [realloc] returned null; and then the struct it leaves behind is the
    struct it was given: count, capacity, array and every other field are
    the same. *)
Theorem add_result_fails_only_on_growth c status m r p m' :
  test_case_add_result (Case c) status m = (r, p, m') ->
  (r = 0 \/ r = -1) /\
  (r = -1 <->
   result_capacity c <= result_count c /\
   realloc (results c) (new_size c) m = (None, m')) /\
  (r = -1 -> p = Case c).
Proof.
  intros Hadd. apply add_result_cases in Hadd as (c' & -> & Hadd).
  apply add_result_at_failure in Hadd as (Hr & Hiff & Hsame).
  split; [done|]. split; [done|]. intros Hm1. by rewrite (Hsame Hm1).
Qed.

Lemma add_result_fails_only_on_growth_witness :
  (-1 = 0 \/ -1 = -1) /\
  (-1 = -1 <->
   result_capacity full_case <= result_count full_case /\
   realloc (results full_case) (new_size full_case) [false; true] = (None, [true])) /\
  (-1 = -1 -> Case full_case = Case full_case).
Proof.
  apply (add_result_fails_only_on_growth full_case STATUS_BUILD_ERROR
           [false; true] (-1) (Case full_case) [true]).
  reflexivity.
Defined.

(** C9: [test_case_add_results_va] answers -1 when the case pointer is
    null or the count is zero or negative, whatever arguments follow, and
    then nothing has been appended: the struct behind the pointer and the
    allocator are as before.  An empty batch is an error. *)
Theorem add_results_va_rejects (test_case : case_ptr) (count : Z)
    (args : list test_status_t) (m : allocator) :
  test_case = NULL_case \/ count <= 0 ->
  test_case_add_results_va test_case count args m = (-1, test_case, m).
Proof.
  intros [-> | Hcount]; [done|].
  unfold test_case_add_results_va. destruct test_case as [|c]; [done|].
  destruct (count <=? 0) eqn:E; [done | apply Z.leb_gt in E; lia].
Qed.

Lemma add_results_va_rejects_witness :
  test_case_add_results_va (Case full_case) 0 [] [] = (-1, Case full_case, []).
Proof.
  apply (add_results_va_rejects (Case full_case) 0 [] []). right. lia.
Defined.

(** C10: the invariant [0 <= result_count <= result_capacity], with an
    array of exactly [result_capacity] slots.  [test_case_create]
    establishes it with both fields zero; [test_case_add_result] keeps
    it, whether it answers 0 or -1, and changes the capacity only from 0
    to 8 or to its double; so every case the public operations can
    produce satisfies it. *)
Theorem test_case_invariant :
  (forall name f m c m',
      test_case_create name f m = (Case c, m') ->
      result_count c = 0 /\ result_capacity c = 0 /\ case_inv c) /\
  (forall c status m r c' m',
      case_inv c ->
      test_case_add_result (Case c) status m = (r, Case c', m') ->
      case_inv c' /\ capacity_step (result_capacity c) (result_capacity c')) /\
  (forall c, reachable_case c -> case_inv c).
Proof.
  split; [exact create_inv|]. split; [|exact reachable_case_inv].
  intros c status m r c' m' Hinv Hadd.
  apply add_result_cases in Hadd as (c1 & [= <-] & Hadd).
  by destruct (add_result_at_inv _ _ _ _ _ _ Hinv Hadd) as (? & ? & _).
Qed.

Lemma test_case_invariant_witness : case_inv full_case.
Proof.
  apply (proj2 (proj2 test_case_invariant)).
  apply (reach_add_results_va fresh_case 8 (replicate 8 STATUS_SUCCESS) [] 0 full_case []).
  - apply (reach_create "Overflow" (Some 1%positive) [] fresh_case []). reflexivity.
  - reflexivity.
Defined.

(** C6: a batch in which the appends of [pre] succeed one by one and the
    append of the next outcome fails.  The call answers -1; it stops
    there (the struct and the allocator are those the failing append
    left, and no outcome of [post] is read); and the outcomes of [pre]
    stay in the log. *)
Theorem add_results_va_partial c m pre c1 m1 status post r p m2 :
  case_inv c ->
  appended c m pre c1 m1 ->
  test_case_add_result (Case c1) status m1 = (r, p, m2) -> r <> 0 ->
  let batch := pre ++ status :: post in
  test_case_add_results_va (Case c) (Z.of_nat (length batch)) batch m
  = (-1, Case c1, m2) /\
  outcomes c1 = outcomes c ++ pre.
Proof.
  intros Hinv Happ Hfail Hr batch. split.
  - unfold test_case_add_results_va, batch.
    destruct (Z.of_nat (length (pre ++ status :: post)) <=? 0) eqn:E.
    { apply Z.leb_le in E. rewrite length_app in E. simpl in E. lia. }
    rewrite Nat2Z.id. by eapply add_results_loop_stops.
  - by destruct (appended_outcomes _ _ _ _ _ Happ Hinv).
Qed.

Lemma add_results_va_partial_witness :
  test_case_add_results_va (Case fresh_case) 10
    (replicate 8 STATUS_SUCCESS ++ STATUS_BUILD_ERROR :: [STATUS_RUNTIME_ERROR])
    [true; false]
  = (-1, Case full_case, []) /\
  outcomes full_case = outcomes fresh_case ++ replicate 8 STATUS_SUCCESS.
Proof.
  apply (add_results_va_partial fresh_case [true; false]
           (replicate 8 STATUS_SUCCESS) full_case [false]
           STATUS_BUILD_ERROR [STATUS_RUNTIME_ERROR] (-1) (Case full_case) []).
  - unfold case_inv, INT_MAX. simpl. lia.
  - repeat (eapply appended_cons; [reflexivity|]). apply appended_nil.
  - reflexivity.
  - lia.
Defined.

(** C7: on a case with no outcomes, with an allocator that grants every
    request, the batch [Success, RuntimeError] and the two single appends
    [Success] then [RuntimeError] end alike: both answer 0, and they
    leave the same struct (its log is exactly [Success; RuntimeError])
    and the same allocator state. *)
Theorem add_results_va_two_singles c m :
  case_inv c -> result_count c = 0 -> Forall (eq true) m ->
  exists c1 m1 c2 m2,
    test_case_add_result (Case c) STATUS_SUCCESS m = (0, Case c1, m1) /\
    test_case_add_result (Case c1) STATUS_RUNTIME_ERROR m1 = (0, Case c2, m2) /\
    test_case_add_results_va (Case c) 2 [STATUS_SUCCESS; STATUS_RUNTIME_ERROR] m
    = (0, Case c2, m2) /\
    outcomes c2 = [STATUS_SUCCESS; STATUS_RUNTIME_ERROR].
Proof.
  intros Hinv Hempty Hm. pose proof Hinv as (Hk & Hcap & Hlen).
  destruct (add_result_at_granted c STATUS_SUCCESS m Hinv Hm)
    as (c1 & m1 & Hadd1 & Hm1).
  { unfold INT_MAX in *.
    destruct (Z_lt_le_dec (result_count c) (result_capacity c)); [by left|right; lia]. }
  destruct (add_result_at_inv _ _ _ _ _ _ Hinv Hadd1)
    as (Hinv1 & Hstep & [[? _]|(_ & Hout1 & Hcnt1)]); [lia|].
  destruct (add_result_at_granted c1 STATUS_RUNTIME_ERROR m1 Hinv1 Hm1)
    as (c2 & m2 & Hadd2 & Hm2).
  { unfold capacity_step, INITIAL_RESULT_CAPACITY, INT_MAX in *.
    destruct Hinv1 as (Hk1 & _ & _). lia. }
  destruct (add_result_at_inv _ _ _ _ _ _ Hinv1 Hadd2)
    as (_ & _ & [[? _]|(_ & Hout2 & _)]); [lia|].
  assert (H1 : test_case_add_result (Case c) STATUS_SUCCESS m = (0, Case c1, m1))
    by (by rewrite add_result_unfold, Hadd1).
  assert (H2 : test_case_add_result (Case c1) STATUS_RUNTIME_ERROR m1 = (0, Case c2, m2))
    by (by rewrite add_result_unfold, Hadd2).
  exists c1, m1, c2, m2. repeat split; [done | done | |].
  - unfold test_case_add_results_va.
    change (Z.to_nat 2) with 2%nat. cbn [Z.leb Z.compare add_results_loop].
    by rewrite H1, H2.
  - rewrite Hout2, Hout1. unfold outcomes. rewrite Hempty. done.
Qed.

Lemma add_results_va_two_singles_witness :
  exists c1 m1 c2 m2,
    test_case_add_result (Case fresh_case) STATUS_SUCCESS [true] = (0, Case c1, m1) /\
    test_case_add_result (Case c1) STATUS_RUNTIME_ERROR m1 = (0, Case c2, m2) /\
    test_case_add_results_va (Case fresh_case) 2
      [STATUS_SUCCESS; STATUS_RUNTIME_ERROR] [true]
    = (0, Case c2, m2) /\
    outcomes c2 = [STATUS_SUCCESS; STATUS_RUNTIME_ERROR].
Proof.
  apply (add_results_va_two_singles fresh_case [true]).
  - unfold case_inv, INT_MAX. simpl. lia.
  - reflexivity.
  - repeat constructor.
Defined.

(** ** Chains as lists *)

(** Induction along a chain of suites, and over a whole tree: [P] for a
    suite follows from [Q] for its children, [Q] for a chain from [P] for
    its first suite and [Q] for the rest. *)
Lemma suite_tree_ind (P : test_suite -> Prop) (Q : suite_ptr -> Prop) :
  (forall s, Q (child_suites s) -> P s) ->
  Q NULL_suite ->
  (forall s, P s -> Q (suite_next s) -> Q (Suite s)) ->
  (forall s, P s) /\ (forall p, Q p).
Proof.
  intros HP Hnull Hcons.
  assert (H : (forall s, P s /\ Q (suite_next s)) /\ (forall p, Q p)).
  { apply suite_mutind.
    - intros n tc k Hk x Hx st. split; [by apply HP | done].
    - done.
    - intros s [Hs Hx]. by apply Hcons. }
  split; [apply H | apply H].
Qed.

Lemma suite_chain_ind (Q : suite_ptr -> Prop) :
  Q NULL_suite -> (forall s, Q (suite_next s) -> Q (Suite s)) -> forall p, Q p.
Proof.
  intros Hnull Hcons.
  apply (suite_tree_ind (fun _ => True) Q); auto.
Qed.

Lemma case_chain_ind (Q : case_ptr -> Prop) :
  Q NULL_case -> (forall c, Q (case_next c) -> Q (Case c)) -> forall p, Q p.
Proof.
  intros Hnull Hcons.
  assert (H : forall c, Q (case_next c)); [|intros [|c]; auto].
  apply (test_case_mut (fun c => Q (case_next c)) Q); auto.
Qed.

Lemma suite_link_last_list child current :
  suite_list (Suite (suite_link_last current child))
  = suite_list (Suite current) ++ suite_list child.
Proof.
  revert current.
  assert (H : forall p, match p with
                        | NULL_suite => True
                        | Suite s => suite_list (Suite (suite_link_last s child))
                                     = suite_list (Suite s) ++ suite_list child
                        end); [|intros s; apply (H (Suite s))].
  apply suite_chain_ind; [done|].
  intros [n tc k [|nxt] st] IH; simpl in *; [done|]. by rewrite <- IH.
Qed.

Lemma case_link_last_list added current :
  case_list (Case (case_link_last current added))
  = case_list (Case current) ++ case_list added.
Proof.
  revert current.
  assert (H : forall p, match p with
                        | NULL_case => True
                        | Case c => case_list (Case (case_link_last c added))
                                    = case_list (Case c) ++ case_list added
                        end); [|intros c; apply (H (Case c))].
  apply case_chain_ind; [done|].
  intros [n f r k cap [|nxt]] IH; simpl in *; [done|]. by rewrite <- IH.
Qed.

(** What the constructors return is not linked to anything yet. *)
Lemma created_unlinked :
  (forall name m s m', test_suite_create name m = (Suite s, m') ->
                       suite_next s = NULL_suite) /\
  (forall name f m c m', test_case_create name f m = (Case c, m') ->
                         case_next c = NULL_case).
Proof.
  split.
  - intros name m s m'. unfold test_suite_create.
    destruct (grant m) as [[] m1]; simpl; [|done].
    destruct (grant m1) as [[] m2]; simpl; [|done]. by intros [= <- <-].
  - intros name f m c m'. unfold test_case_create.
    destruct (grant m) as [[] m1]; simpl; [|done].
    destruct (grant m1) as [[] m2]; simpl; [|done]. by intros [= <- <-].
Qed.

Lemma suite_list_single c : suite_next c = NULL_suite -> suite_list (Suite c) = [c].
Proof. destruct c as [n tc k x st]. simpl. by intros ->. Qed.

Lemma case_list_single c : case_next c = NULL_case -> case_list (Case c) = [c].
Proof. destruct c as [n f r k cap x]. simpl. by intros ->. Qed.

(** C8: [test_suite_add_child], [test_suite_add_test_case] and
    [test_runner_add_suite].  With a null argument on either side the
    call returns with the parent (suite, runner) exactly as it was; the
    functions are [void], so nothing is reported.  With both arguments
    present, and the second one not yet linked anywhere (the ownership
    rule of the header), the parent's list becomes the old list followed
    by what the second argument points to (one struct when its own [next]
    is null, as for a newly created one), in the old order, and no other
    field of the parent changes. *)
Theorem add_appends_or_ignores :
  (forall child, test_suite_add_child NULL_suite child = NULL_suite) /\
  (forall parent, test_suite_add_child parent NULL_suite = parent) /\
  (forall added, test_suite_add_test_case NULL_suite added = NULL_suite) /\
  (forall suite, test_suite_add_test_case suite NULL_case = suite) /\
  (forall suite, test_runner_add_suite None suite = None) /\
  (forall runner, test_runner_add_suite runner NULL_suite = runner) /\
  (forall p c, exists p',
      test_suite_add_child (Suite p) (Suite c) = Suite p' /\
      suite_list (child_suites p') = suite_list (child_suites p) ++ suite_list (Suite c) /\
      (suite_next c = NULL_suite ->
       suite_list (child_suites p') = suite_list (child_suites p) ++ [c]) /\
      set_child_suites p' (child_suites p) = p) /\
  (forall s c, exists s',
      test_suite_add_test_case (Suite s) (Case c) = Suite s' /\
      case_list (test_cases s') = case_list (test_cases s) ++ case_list (Case c) /\
      (case_next c = NULL_case ->
       case_list (test_cases s') = case_list (test_cases s) ++ [c]) /\
      set_test_cases s' (test_cases s) = s) /\
  (forall r s, exists r',
      test_runner_add_suite (Some r) (Suite s) = Some r' /\
      suite_list (root_suite r') = suite_list (root_suite r) ++ suite_list (Suite s) /\
      (suite_next s = NULL_suite ->
       suite_list (root_suite r') = suite_list (root_suite r) ++ [s]) /\
      global_stats r' = global_stats r).
Proof.
  repeat apply conj.
  - done.
  - by intros [|p].
  - done.
  - by intros [|s].
  - done.
  - by intros [r|].
  - intros p c.
    assert (H : exists p',
      test_suite_add_child (Suite p) (Suite c) = Suite p' /\
      suite_list (child_suites p') = suite_list (child_suites p) ++ suite_list (Suite c) /\
      set_child_suites p' (child_suites p) = p).
    { unfold test_suite_add_child. destruct p as [n tc [|current] x st].
      - eexists. split; [done|]. by split.
      - eexists. split; [done|]. split; [|done].
        cbn [child_suites set_child_suites]. apply suite_link_last_list. }
    destruct H as (p' & H1 & H2 & H3). exists p'.
    split; [done|]. split; [done|]. split; [|done].
    intros Hc. by rewrite H2, suite_list_single.
  - intros s c.
    assert (H : exists s',
      test_suite_add_test_case (Suite s) (Case c) = Suite s' /\
      case_list (test_cases s') = case_list (test_cases s) ++ case_list (Case c) /\
      set_test_cases s' (test_cases s) = s).
    { unfold test_suite_add_test_case. destruct s as [n [|current] k x st].
      - eexists. split; [done|]. by split.
      - eexists. split; [done|]. split; [|done].
        cbn [test_cases set_test_cases]. apply case_link_last_list. }
    destruct H as (s' & H1 & H2 & H3). exists s'.
    split; [done|]. split; [done|]. split; [|done].
    intros Hc. by rewrite H2, case_list_single.
  - intros r s.
    assert (H : exists r',
      test_runner_add_suite (Some r) (Suite s) = Some r' /\
      suite_list (root_suite r') = suite_list (root_suite r) ++ suite_list (Suite s) /\
      global_stats r' = global_stats r).
    { unfold test_runner_add_suite. destruct r as [[|current] gs].
      - eexists. split; [done|]. by split.
      - eexists. split; [done|]. split; [|done].
        cbn [root_suite]. apply suite_link_last_list. }
    destruct H as (r' & H1 & H2 & H3). exists r'.
    split; [done|]. split; [done|]. split; [|done].
    intros Hc. by rewrite H2, suite_list_single.
Qed.

Lemma add_appends_or_ignores_witness :
  exists p',
    test_suite_add_child
      (test_suite_add_child (Suite math_suite) (Suite edge_suite))
      (Suite math_suite) = Suite p' /\
    suite_list (child_suites p') = [edge_suite; math_suite].
Proof.
  destruct add_appends_or_ignores as (_ & _ & _ & _ & _ & _ & Hadd & _).
  destruct (Hadd (mk_suite "Math" (Case fresh_case) (Suite edge_suite) NULL_suite
                           (mk_stats 0 0 0 0 0 0)) math_suite)
    as (p' & H1 & _ & H2 & _).
  exists p'. split; [exact H1|]. apply H2. reflexivity.
Defined.

(** ** Statistics *)

Lemma to_int_add_l a b : to_int (to_int a + b) = to_int (a + b).
Proof.
  unfold to_int. f_equal.
  replace ((a + 2147483648) mod 4294967296 - 2147483648 + b + 2147483648)
    with ((a + 2147483648) mod 4294967296 + b) by lia.
  rewrite Zplus_mod_idemp_l. f_equal. lia.
Qed.

Lemma to_int_add a b : to_int (to_int a + to_int b) = to_int (a + b).
Proof.
  rewrite to_int_add_l, (Z.add_comm a (to_int b)), to_int_add_l.
  f_equal. lia.
Qed.

Lemma count_of_app k l1 l2 : count_of k (l1 ++ l2) = count_of k l1 + count_of k l2.
Proof. unfold count_of. rewrite filter_app, length_app. lia. Qed.

Lemma count_of_bounds k l : 0 <= count_of k l <= Z.of_nat (length l).
Proof. unfold count_of. pose proof (length_filter (fun s => s = k) l). lia. Qed.

Lemma count_of_cons k s l :
  count_of k (s :: l) = (if decide (s = k) then 1 else 0) + count_of k l.
Proof.
  unfold count_of. rewrite filter_cons.
  destruct (decide (s = k)); simpl; lia.
Qed.

(** An enumerator is one of six values. *)
Lemma is_status_cases k :
  is_status k ->
  k = STATUS_SUCCESS \/ k = STATUS_UNEXPECTED_OUTPUT \/
  k = STATUS_EXPECTED_BUILD_ERROR \/ k = STATUS_BUILD_ERROR \/
  k = STATUS_EXPECTED_RUNTIME_ERROR \/ k = STATUS_RUNTIME_ERROR.
Proof. unfold is_status. lia. Qed.

Ltac each_status k H :=
  destruct (is_status_cases k H) as [?|[?|[?|[?|[?|?]]]]]; subst k.

(** A value that is none of the enumerators falls through every
    [switch]. *)
Lemma switch_default (s : test_status_t) :
  ~ is_status s ->
  (forall st, tally (Some s) st = st) /\
  get_status_color (Some s) = ANSI_RESET /\
  get_status_char (Some s) = "?"%char.
Proof.
  unfold is_status. intros Hs.
  destruct s as [|p|p]; [lia| |done].
  destruct p as [p|p|]; [| |lia];
    (destruct p as [p|p|]; [| |lia]);
    (destruct p as [p|p|]; try done; lia).
Qed.

(** One more outcome of value [s]: the counter of its kind goes up by
    one, modulo the range of [int]; the others stay. *)
Lemma stat_tally k s st :
  is_status k ->
  stat k (tally (Some s) st)
  = if decide (s = k) then to_int (stat k st + 1) else stat k st.
Proof.
  intros Hk. destruct (decide (is_status s)) as [Hs|Hs].
  - each_status k Hk; each_status s Hs; by destruct (decide _).
  - rewrite (proj1 (switch_default s Hs)).
    destruct (decide (s = k)) as [->|]; done.
Qed.

Lemma stat_add_stats k st child :
  is_status k ->
  stat k (add_stats st child) = to_int (stat k st + stat k child).
Proof. intros Hk. by each_status k Hk. Qed.

(** The loop over slot indices reads the log. *)
Lemma loads_are_outcomes c :
  omap (load c) (seqZ 0 (result_count c)) = outcomes c.
Proof.
  unfold outcomes, seqZ.
  generalize (Z.to_nat (result_count c)) as n.
  induction n as [|n IH]; [done|].
  rewrite seq_S, fmap_app, omap_app, IH. simpl.
  unfold load. destruct (Z.of_nat n + 0 <? 0) eqn:E; [apply Z.ltb_lt in E; lia|].
  replace (Z.to_nat (Z.of_nat n + 0)) with n by lia.
  destruct (slots c !! n) as [x|] eqn:Hx.
  - rewrite (take_S_r _ _ x) by done. rewrite omap_app. simpl.
    by destruct x.
  - apply lookup_ge_None in Hx. rewrite !take_ge by lia. by rewrite app_nil_r.
Qed.

Lemma foldl_omap {A B S} (g : A -> option B) (f : option B -> S -> S) l :
  (forall st, f None st = st) ->
  forall st, foldl (fun st i => f (g i) st) st l
             = foldl (fun st x => f (Some x) st) st (omap g l).
Proof.
  intros Hnone. induction l as [|i l IH]; intros st; simpl; [done|].
  destruct (g i) as [x|]; simpl; [apply IH|]. rewrite Hnone. apply IH.
Qed.

Lemma tally_case_outcomes c st :
  tally_case c st = foldl (fun st s => tally (Some s) st) st (outcomes c).
Proof.
  unfold tally_case. rewrite (foldl_omap (load c) tally) by done.
  by rewrite loads_are_outcomes.
Qed.

Lemma stat_tally_list k l : is_status k -> forall st x,
  stat k st = to_int x ->
  stat k (foldl (fun st s => tally (Some s) st) st l) = to_int (x + count_of k l).
Proof.
  intros Hk. induction l as [|s l IH]; intros st x Hst; cbn [foldl].
  - unfold count_of. simpl. rewrite Hst. f_equal. lia.
  - rewrite (IH _ (x + if decide (s = k) then 1 else 0)).
    + rewrite count_of_cons. f_equal. lia.
    + rewrite stat_tally by done. destruct (decide (s = k)).
      * by rewrite Hst, to_int_add_l.
      * rewrite Hst. f_equal. lia.
Qed.

Lemma stat_tally_cases k p : is_status k -> forall st x,
  stat k st = to_int x ->
  stat k (tally_cases p st) = to_int (x + count_of k (case_chain_outcomes p)).
Proof.
  intros Hk. induction p as [|c IH] using case_chain_ind; intros st x Hst;
    cbn [tally_cases case_chain_outcomes].
  - unfold count_of. simpl. rewrite Hst. f_equal. lia.
  - rewrite (IH _ (x + count_of k (outcomes c))).
    + rewrite count_of_app. f_equal. lia.
    + rewrite tally_case_outcomes. by apply stat_tally_list.
Qed.

Lemma set_suite_next_fields s x :
  suite_name (set_suite_next s x) = suite_name s /\
  test_cases (set_suite_next s x) = test_cases s /\
  child_suites (set_suite_next s x) = child_suites s /\
  suite_next (set_suite_next s x) = x /\
  stats (set_suite_next s x) = stats s /\
  subtree_outcomes (set_suite_next s x) = subtree_outcomes s /\
  suites_of (set_suite_next s x) = set_suite_next s x :: chain_suites (child_suites s).
Proof. by destruct s. Qed.

Lemma suites_of_unfold s : suites_of s = s :: chain_suites (child_suites s).
Proof. by destruct s. Qed.

Lemma stats_fresh_set_next s x : stats_fresh s -> stats_fresh (set_suite_next s x).
Proof.
  unfold stats_fresh. destruct (set_suite_next_fields s x) as (_ & _ & _ & _ & -> & -> & _).
  done.
Qed.

(** The pass over a tree: it touches nothing but statistics, and it
    leaves every suite of the tree with fresh statistics. *)
Lemma calculate_tree :
  (forall s,
      suite_name (calculate_suite_stats_at s) = suite_name s /\
      test_cases (calculate_suite_stats_at s) = test_cases s /\
      suite_next (calculate_suite_stats_at s) = suite_next s /\
      subtree_outcomes (calculate_suite_stats_at s) = subtree_outcomes s /\
      Forall stats_fresh (suites_of (calculate_suite_stats_at s))) /\
  (forall p st p' st',
      calculate_children p st = (p', st') ->
      chain_outcomes p' = chain_outcomes p /\
      Forall stats_fresh (chain_suites p') /\
      forall k x, is_status k -> stat k st = to_int x ->
                  stat k st' = to_int (x + count_of k (chain_outcomes p))).
Proof.
  apply suite_tree_ind.
  - intros [n tc k x st0] IH. cbn [calculate_suite_stats_at child_suites test_cases
                                    suite_name suite_next].
    destruct (calculate_children k (tally_cases tc zero_stats)) as [k' st'] eqn:Hk.
    destruct (IH _ _ _ Hk) as (Hout & Hfresh & Hstat).
    cbn [suite_name test_cases suite_next subtree_outcomes suites_of child_suites].
    do 3 (split; [done|]). split; [by rewrite Hout|].
    apply Forall_cons. split; [|done].
    intros kind Hkind. cbn [stats subtree_outcomes test_cases child_suites].
    rewrite (Hstat kind (0 + count_of kind (case_chain_outcomes tc)) Hkind).
    + rewrite Hout, count_of_app. f_equal; lia.
    + apply stat_tally_cases; [done|]. by each_status kind Hkind.
  - intros st p' st' [= <- <-]. split; [done|]. split; [done|].
    intros k x _ ->. unfold count_of. simpl. f_equal; lia.
  - intros s (Hn & Htc & Hx & Hout & Hfresh) IH st p' st'.
    cbn [calculate_children].
    destruct (calculate_children (suite_next s)
                (add_stats st (stats (calculate_suite_stats_at s))))
      as [rest st1] eqn:Hrest.
    intros [= <- <-].
    destruct (IH _ _ _ Hrest) as (Hout1 & Hfresh1 & Hstat1).
    destruct (set_suite_next_fields (calculate_suite_stats_at s) rest)
      as (_ & _ & _ & Hnx & _ & Hsub & Hsuites).
    cbn [chain_outcomes chain_suites]. rewrite Hnx, Hsub, Hsuites, Hout, Hout1.
    rewrite suites_of_unfold in Hfresh.
    split; [done|]. split.
    + apply Forall_app. split; [|done].
      apply Forall_cons in Hfresh as [Hroot Hkids].
      apply Forall_cons. split; [by apply stats_fresh_set_next | done].
    + intros k x Hk Hst.
      rewrite (Hstat1 k (x + count_of k (subtree_outcomes s)) Hk).
      * rewrite count_of_app. f_equal; lia.
      * apply Forall_cons in Hfresh as [Hroot _].
        rewrite stat_add_stats, Hst, (Hroot k Hk), Hout by done. apply to_int_add.
Qed.

(** The subtree of a suite of a tree is part of the tree: it has no more
    outcomes of a kind than the tree. *)
Lemma subtree_count_le k :
  (forall s S, S ∈ suites_of s ->
               count_of k (subtree_outcomes S) <= count_of k (subtree_outcomes s)) /\
  (forall p S, S ∈ chain_suites p ->
               count_of k (subtree_outcomes S) <= count_of k (chain_outcomes p)).
Proof.
  apply suite_tree_ind.
  - intros [n tc kids x st] IH S.
    cbn [suites_of subtree_outcomes child_suites test_cases].
    intros [->|HS]%elem_of_cons; [done|].
    apply IH in HS. cbn [child_suites] in HS. rewrite count_of_app.
    pose proof (count_of_bounds k (case_chain_outcomes tc)). lia.
  - intros S HS. by apply elem_of_nil in HS.
  - intros s IHs IHx S. cbn [chain_suites chain_outcomes].
    rewrite count_of_app.
    pose proof (count_of_bounds k (subtree_outcomes s)).
    pose proof (count_of_bounds k (chain_outcomes (suite_next s))).
    intros [HS|HS]%elem_of_app.
    + apply IHs in HS. lia.
    + apply IHx in HS. lia.
Qed.

(** The pass changes statistics and nothing else. *)
Lemma calculate_clear :
  (forall s, clear_stats_at (calculate_suite_stats_at s) = clear_stats_at s) /\
  (forall p st p' st',
      calculate_children p st = (p', st') -> clear_stats p' = clear_stats p).
Proof.
  apply suite_tree_ind.
  - intros [n tc k x st0] IH.
    cbn [calculate_suite_stats_at child_suites test_cases suite_name suite_next] in *.
    destruct (calculate_children k (tally_cases tc zero_stats)) as [k' st'] eqn:Hk.
    cbn [clear_stats_at child_suites test_cases suite_name suite_next].
    by rewrite (IH _ _ _ Hk).
  - by intros st p' st' [= <- <-].
  - intros s IHs IHx st p' st'. cbn [calculate_children].
    destruct (calculate_children (suite_next s)
                (add_stats st (stats (calculate_suite_stats_at s))))
      as [rest st1] eqn:Hrest.
    intros [= <- <-]. cbn [clear_stats]. f_equal.
    apply IHx in Hrest. revert IHs.
    destruct (calculate_suite_stats_at s) as [n' tc' k' x' st'0], s as [n tc k x st0].
    cbn [clear_stats_at set_suite_next child_suites test_cases suite_name suite_next] in *.
    intros [= -> -> -> _]. by rewrite Hrest.
Qed.

Lemma subtree_outcomes_clear :
  (forall s, subtree_outcomes (clear_stats_at s) = subtree_outcomes s) /\
  (forall p, chain_outcomes (clear_stats p) = chain_outcomes p).
Proof.
  apply suite_tree_ind.
  - intros [n tc k x st] IH.
    cbn [clear_stats_at subtree_outcomes test_cases child_suites] in *.
    by rewrite IH.
  - done.
  - intros s IHs IHx. cbn [clear_stats chain_outcomes].
    rewrite IHs. f_equal. destruct s as [n tc k x st]. apply IHx.
Qed.

(** Two suites that differ in [stats] fields only have the same name and
    the same outcomes below them. *)
Lemma same_but_stats a b :
  clear_stats_at a = clear_stats_at b ->
  suite_name a = suite_name b /\ subtree_outcomes a = subtree_outcomes b.
Proof.
  intros H. split.
  - destruct a, b. by injection H.
  - by rewrite <- (proj1 subtree_outcomes_clear a), H, (proj1 subtree_outcomes_clear).
Qed.

(** Two trees that differ in [stats] fields only have the same suites,
    one for one. *)
Lemma suites_paired :
  (forall a b, clear_stats_at b = clear_stats_at a ->
     Forall2 (fun S0 S => clear_stats_at S = clear_stats_at S0)
             (suites_of a) (suites_of b)) /\
  (forall p q, clear_stats q = clear_stats p ->
     Forall2 (fun S0 S => clear_stats_at S = clear_stats_at S0)
             (chain_suites p) (chain_suites q)).
Proof.
  apply (suite_tree_ind
    (fun a => forall b, clear_stats_at b = clear_stats_at a ->
       Forall2 (fun S0 S => clear_stats_at S = clear_stats_at S0)
               (suites_of a) (suites_of b))
    (fun p => forall q, clear_stats q = clear_stats p ->
       Forall2 (fun S0 S => clear_stats_at S = clear_stats_at S0)
               (chain_suites p) (chain_suites q))).
  - intros a IH b Hab. rewrite (suites_of_unfold a), (suites_of_unfold b).
    constructor; [done|]. apply IH.
    destruct a, b. cbn [clear_stats_at child_suites suite_name test_cases suite_next] in *.
    by injection Hab.
  - intros [|t] H; [constructor|done].
  - intros s IHs IHx [|t] H; [done|].
    cbn [clear_stats] in H. injection H as H.
    cbn [chain_suites]. apply Forall2_app; [by apply IHs|].
    apply IHx. destruct s, t.
    cbn [clear_stats_at child_suites suite_name test_cases suite_next] in *.
    by injection H.
Qed.

Lemma Forall2_and_r {A B} (R : A -> B -> Prop) (P : B -> Prop) l1 l2 :
  Forall2 R l1 l2 -> Forall P l2 -> Forall2 (fun x y => R x y /\ P y) l1 l2.
Proof.
  induction 1 as [|x y l1 l2 Hxy _ IH]; [constructor|].
  intros [Hy Hl]%Forall_cons. constructor; auto.
Qed.

Lemma Forall2_elem_l {A B} (R : A -> B -> Prop) l1 l2 x :
  Forall2 R l1 l2 -> x ∈ l1 -> exists y, y ∈ l2 /\ R x y.
Proof.
  induction 1 as [|x0 y l1 l2 Hxy _ IH]; [intros H; by apply elem_of_nil in H|].
  intros [->|Hin]%elem_of_cons.
  - exists y. split; [apply list_elem_of_here|done].
  - destruct (IH Hin) as (y' & Hy' & HR). exists y'.
    split; [by apply list_elem_of_further|done].
Qed.

(** The pass over a tree, suite by suite: each suite of the given tree
    comes back with nothing but its statistics changed, and these are
    fresh. *)
Lemma calculate_paired s :
  Forall2 (fun S0 S =>
             (clear_stats_at S = clear_stats_at S0) /\
             (S ∈ suites_of (calculate_suite_stats_at s) /\ stats_fresh S))
          (suites_of s) (suites_of (calculate_suite_stats_at s)).
Proof.
  apply Forall2_and_r.
  - apply (proj1 suites_paired). apply (proj1 calculate_clear).
  - destruct (proj1 calculate_tree s) as (_ & _ & _ & _ & Hfresh).
    apply Forall_forall. intros S HS. split; [done|].
    by apply (proj1 (Forall_forall _ _) Hfresh).
Qed.

(** C1: [calculate_suite_stats] on the root of a tree gives back the
    suites of that tree, one for one and in the same places, with
    nothing but [stats] fields changed (names, cases, logs and shape are
    those given), and every suite [S] of the given tree (the root and
    every descendant) then has, in the counter of each of the six kinds,
    the number of recorded outcomes of that kind over all cases of [S]'s
    subtree: its own cases and those of every descendant.  The suites
    that follow the root in its chain are not touched.  The counters are
    [int]s: the statement is for a kind whose outcomes in the whole tree
    are few enough to be counted in one. *)
Theorem stats_count_subtree (root : suite_ptr) (k : test_status_t) :
  is_status k ->
  count_of k (tree_outcomes root) <= INT_MAX ->
  Forall2 (fun S0 S =>
             clear_stats_at S = clear_stats_at S0 /\
             stat k (stats S) = count_of k (subtree_outcomes S0))
          (tree_suites root) (tree_suites (calculate_suite_stats root)) /\
  following (calculate_suite_stats root) = following root.
Proof.
  intros Hk. destruct root as [|s]; [intros _; split; [constructor|done]|].
  cbn [tree_outcomes calculate_suite_stats tree_suites following]. intros Hsmall.
  destruct (proj1 calculate_tree s) as (_ & _ & Hnext & Hout & _).
  split; [|done].
  eapply Forall2_impl; [apply calculate_paired|].
  intros S0 S (Hsame & HS & Hfresh). split; [done|].
  destruct (same_but_stats _ _ Hsame) as [_ Hsub].
  rewrite (Hfresh k Hk), Hsub.
  apply (proj1 (subtree_count_le k)) in HS. rewrite Hout, Hsub in HS.
  pose proof (count_of_bounds k (subtree_outcomes S0)).
  apply to_int_id. lia.
Qed.

Lemma stats_count_subtree_witness :
  Forall2 (fun S0 S =>
             clear_stats_at S = clear_stats_at S0 /\
             stat STATUS_BUILD_ERROR (stats S)
             = count_of STATUS_BUILD_ERROR (subtree_outcomes S0))
          (tree_suites (Suite math_tree))
          (tree_suites (calculate_suite_stats (Suite math_tree))) /\
  following (calculate_suite_stats (Suite math_tree)) = following (Suite math_tree).
Proof.
  apply (stats_count_subtree (Suite math_tree) STATUS_BUILD_ERROR).
  - unfold is_status. lia.
  - vm_compute. discriminate.
Defined.

(** ** The report *)

Lemma calculate_set_next s x :
  calculate_suite_stats_at (set_suite_next s x)
  = set_suite_next (calculate_suite_stats_at s) x.
Proof.
  destruct s as [n tc k x0 st]. cbn [set_suite_next calculate_suite_stats_at
    child_suites test_cases suite_name suite_next].
  by destruct (calculate_children k (tally_cases tc zero_stats)).
Qed.

Lemma set_suite_next_twice s x y :
  set_suite_next (set_suite_next s x) y = set_suite_next s y.
Proof. by destruct s. Qed.

(** A second pass finds nothing to change. *)
Lemma calculate_twice :
  (forall s, calculate_suite_stats_at (calculate_suite_stats_at s)
             = calculate_suite_stats_at s) /\
  (forall p st p' st',
      calculate_children p st = (p', st') -> calculate_children p' st = (p', st')).
Proof.
  apply suite_tree_ind.
  - intros [n tc k x st0] IH.
    cbn [calculate_suite_stats_at child_suites test_cases suite_name suite_next] in *.
    destruct (calculate_children k (tally_cases tc zero_stats)) as [k' st'] eqn:Hk.
    cbn [calculate_suite_stats_at child_suites test_cases suite_name suite_next].
    by rewrite (IH _ _ _ Hk).
  - by intros st p' st' [= <- <-].
  - intros s IHs IHx st p' st'. cbn [calculate_children].
    destruct (calculate_children (suite_next s)
                (add_stats st (stats (calculate_suite_stats_at s))))
      as [rest st1] eqn:Hrest.
    intros [= <- <-]. cbn [calculate_children].
    rewrite calculate_set_next, IHs.
    destruct (set_suite_next_fields (calculate_suite_stats_at s) rest)
      as (_ & _ & _ & -> & -> & _).
    rewrite (IHx _ _ _ Hrest). by rewrite set_suite_next_twice.
Qed.

Lemma calculate_siblings_twice p :
  calculate_siblings (calculate_siblings p) = calculate_siblings p.
Proof.
  induction p as [|s IH] using suite_chain_ind; [done|].
  cbn [calculate_siblings].
  destruct (set_suite_next_fields (calculate_suite_stats_at s)
              (calculate_siblings (suite_next s))) as (_ & _ & _ & -> & _).
  rewrite calculate_set_next, (proj1 calculate_twice), IH.
  by rewrite set_suite_next_twice.
Qed.

Lemma calculate_siblings_clear p :
  clear_stats (calculate_siblings p) = clear_stats p.
Proof.
  induction p as [|s IH] using suite_chain_ind; [done|].
  cbn [calculate_siblings clear_stats]. f_equal.
  pose proof (proj1 calculate_clear s) as Hs. revert Hs IH.
  destruct (calculate_suite_stats_at s) as [n' tc' k' x' st'0], s as [n tc k x st0].
  cbn [clear_stats_at set_suite_next child_suites test_cases suite_name suite_next].
  intros [= -> -> -> _] ->. done.
Qed.

Lemma calculate_siblings_fresh p :
  Forall stats_fresh (chain_suites (calculate_siblings p)).
Proof.
  induction p as [|s IH] using suite_chain_ind; [by constructor|].
  cbn [calculate_siblings chain_suites].
  destruct (set_suite_next_fields (calculate_suite_stats_at s)
              (calculate_siblings (suite_next s))) as (_ & _ & _ & -> & _ & _ & ->).
  destruct (proj1 calculate_tree s) as (_ & _ & _ & _ & Hfresh).
  rewrite suites_of_unfold in Hfresh. apply Forall_cons in Hfresh as [Hroot Hkids].
  apply Forall_app. split; [|done].
  apply Forall_cons. split; [by apply stats_fresh_set_next | done].
Qed.

Lemma print_test_results_root runner :
  runner_root (snd (print_test_results runner))
  = calculate_siblings (runner_root runner).
Proof.
  destruct runner as [[root gs]|]; [|done].
  unfold print_test_results. cbn [root_suite]. by destruct root.
Qed.

(** C4, as stated, fails: [print_test_results] begins with the
    statistics pass, so a render overwrites stale statistics.  Here the
    root's counters are all zero before the call and count one success
    and one build error after it. *)
Lemma render_overwrites_stale_stats :
  root_stats stale_runner = Some (mk_stats 0 0 0 0 0 0) /\
  root_stats (snd (print_test_results stale_runner)) = Some (mk_stats 1 0 0 1 0 0).
Proof. split; reflexivity. Qed.

(** C4, amended: [print_test_results] recomputes the statistics and then
    draws.  A second call on what the first one left prints the same
    bytes and leaves the same structure; a call changes nothing but
    [stats] fields (names, cases, logs and shape stay), and it leaves
    every suite with the statistics of its subtree. *)
Theorem render_idempotent (runner : option test_runner) :
  print_test_results (snd (print_test_results runner)) = print_test_results runner /\
  clear_stats (runner_root (snd (print_test_results runner)))
  = clear_stats (runner_root runner) /\
  Forall stats_fresh (runner_suites (snd (print_test_results runner))).
Proof.
  split; [|split].
  - destruct runner as [[root gs]|]; [|done].
    unfold print_test_results at 2 3. cbn [root_suite].
    destruct root as [|s]; [done|]. cbn [snd].
    unfold print_test_results. cbn [root_suite].
    rewrite calculate_siblings_twice.
    by destruct (calculate_siblings (Suite s)) eqn:E.
  - rewrite print_test_results_root. apply calculate_siblings_clear.
  - destruct runner as [[root gs]|]; [|by constructor].
    unfold print_test_results. cbn [root_suite].
    destruct root as [|s]; [by constructor|]. cbn [snd runner_suites root_suite].
    apply calculate_siblings_fresh.
Qed.

(** ** The run *)

Lemma due_set_next c x : due (set_case_next c x) = due c.
Proof. by destruct c. Qed.

Lemma outcomes_set_next c x : outcomes (set_case_next c x) = outcomes c.
Proof. by destruct c. Qed.

Lemma case_inv_set_next c x : case_inv (set_case_next c x) <-> case_inv c.
Proof. by destruct c. Qed.

Lemma add_result_at_next c status m r c' m' :
  add_result_at c status m = (r, c', m') -> case_next c' = case_next c.
Proof.
  unfold add_result_at.
  destruct (result_capacity c <=? result_count c).
  - destruct (realloc _ _ m) as [[a|] m1]; intros [= <- <- <-]; by destruct c.
  - intros [= <- <- <-]. by destruct c.
Qed.

(** One step of the inner loop. *)
Lemma run_case_spec {G} (code : test_func_t -> G -> test_status_t * G) c w c' w' :
  run_case code c w = (c', w') ->
  case_next c' = case_next c /\
  w_calls w' = w_calls w ++ option_list (due c) /\
  (due c = None -> c' = c /\ w' = w) /\
  (case_inv c -> ran code c c') /\
  (case_inv c -> Forall (eq true) (w_alloc w) ->
   ran_granted code c c' /\ Forall (eq true) (w_alloc w')).
Proof.
  unfold run_case, ran, ran_granted, due.
  destruct (test_func c) as [f|]; [|intros [= <- <-]; by rewrite app_nil_r].
  destruct (result_count c =? 0) eqn:Hempty;
    [|intros [= <- <-]; by rewrite app_nil_r].
  apply Z.eqb_eq in Hempty.
  destruct (code f (w_user w)) as [result g] eqn:Hcall.
  destruct (add_result_at c result (w_alloc w)) as [[r c1] m] eqn:Hadd.
  intros [= <- <-]. cbn [w_calls w_alloc option_list].
  split; [by eapply add_result_at_next|]. split; [done|]. split; [done|].
  assert (Hlog : case_inv c -> r = 0 ->
                 outcomes c1 = [fst (code f (w_user w))]).
  { intros Hinv ->.
    destruct (add_result_at_inv _ _ _ _ _ _ Hinv Hadd)
      as (_ & _ & [[? _]|(_ & -> & _)]); [lia|].
    unfold outcomes at 1. by rewrite Hempty, Hcall. }
  split.
  - intros Hinv.
    destruct (add_result_at_failure _ _ _ _ _ _ Hadd) as ([->| ->] & _ & Hfail).
    + left. exists (w_user w). by apply Hlog.
    + right. by apply Hfail.
  - intros Hinv Hm.
    destruct (add_result_at_granted c result (w_alloc w) Hinv Hm)
      as (c2 & m2 & Hadd2 & Hm2).
    { destruct (Z_lt_le_dec (result_count c) (result_capacity c)); [by left|].
      right. destruct Hinv as (? & ? & ?). unfold INT_MAX. lia. }
    rewrite Hadd in Hadd2. injection Hadd2 as -> <- <-.
    split; [|done]. exists (w_user w). by apply Hlog.
Qed.

Lemma ran_unlink {G} (code : test_func_t -> G -> test_status_t * G) c c' :
  case_next c' = case_next c -> ran code c c' ->
  ran code (set_case_next c NULL_case) (set_case_next c' NULL_case).
Proof.
  unfold ran. rewrite due_set_next, outcomes_set_next.
  destruct (due c); [intros _ [?| ->]; auto | by intros _ ->].
Qed.

Lemma ran_granted_unlink {G} (code : test_func_t -> G -> test_status_t * G) c c' :
  case_next c' = case_next c -> ran_granted code c c' ->
  ran_granted code (set_case_next c NULL_case) (set_case_next c' NULL_case).
Proof.
  unfold ran_granted. rewrite due_set_next, outcomes_set_next.
  destruct (due c); [done | by intros _ ->].
Qed.

Lemma omap_due_cons c l :
  omap due (c :: l) = option_list (due c) ++ omap due l.
Proof. simpl. by destruct (due c). Qed.

(** The inner loop, over the cases of one suite. *)
Lemma run_cases_spec {G} (code : test_func_t -> G -> test_status_t * G) p :
  forall w p' w',
    run_cases code p w = (p', w') ->
    w_calls w' = w_calls w ++ omap due (case_list p) /\
    (Forall case_inv (case_list p) ->
     Forall2 (ran code) (case_list p) (case_list p')) /\
    (Forall case_inv (case_list p) -> Forall (eq true) (w_alloc w) ->
     Forall2 (ran_granted code) (case_list p) (case_list p') /\
     Forall (eq true) (w_alloc w')).
Proof.
  induction p as [|c IH] using case_chain_ind; intros w p' w'.
  - intros [= <- <-]. rewrite app_nil_r. repeat split; auto.
  - cbn [run_cases].
    destruct (run_case code c w) as [c1 w1] eqn:Hc.
    destruct (run_cases code (case_next c) w1) as [rest w2] eqn:Hrest.
    intros [= <- <-].
    destruct (run_case_spec _ _ _ _ _ Hc) as (Hnext & Hcalls & _ & Hran & Hgranted).
    destruct (IH _ _ _ Hrest) as (Hcalls2 & Hran2 & Hgranted2).
    assert (Hlist : case_list (Case (set_case_next c1 rest))
                    = set_case_next c1 NULL_case :: case_list rest).
    { destruct c1. done. }
    rewrite Hlist. cbn [case_list]. rewrite omap_due_cons, due_set_next.
    split; [by rewrite Hcalls2, Hcalls, <- app_assoc|]. split.
    + intros [Hinv Hrestinv]%Forall_cons. apply case_inv_set_next in Hinv.
      constructor; [by apply ran_unlink; auto | auto].
    + intros [Hinv Hrestinv]%Forall_cons Hm. apply case_inv_set_next in Hinv.
      destruct (Hgranted Hinv Hm) as [Hg Hm1].
      destruct (Hgranted2 Hrestinv Hm1) as [Hg2 Hm2].
      split; [|done]. constructor; [by apply ran_granted_unlink | done].
Qed.

(** The outer loop, over the suites of the runner's list. *)
Lemma run_suites_spec {G} (code : test_func_t -> G -> test_status_t * G) p :
  forall w p' w',
    run_suites code p w = (p', w') ->
    w_calls w' = w_calls w ++ omap due (top_cases p) /\
    below_top p' = below_top p /\
    (Forall case_inv (top_cases p) ->
     Forall2 (ran code) (top_cases p) (top_cases p')) /\
    (Forall case_inv (top_cases p) -> Forall (eq true) (w_alloc w) ->
     Forall2 (ran_granted code) (top_cases p) (top_cases p') /\
     Forall (eq true) (w_alloc w')).
Proof.
  induction p as [|s IH] using suite_chain_ind; intros w p' w'.
  - intros [= <- <-]. rewrite app_nil_r. repeat split; auto.
  - cbn [run_suites].
    destruct (run_cases code (test_cases s) w) as [cases w1] eqn:Hcases.
    destruct (run_suites code (suite_next s) w1) as [rest w2] eqn:Hrest.
    intros [= <- <-].
    destruct (run_cases_spec _ _ _ _ _ Hcases) as (Hcalls & Hran & Hgranted).
    destruct (IH _ _ _ Hrest) as (Hcalls2 & Hbelow2 & Hran2 & Hgranted2).
    cbn [top_cases below_top test_cases child_suites suite_next].
    rewrite omap_app.
    split; [by rewrite Hcalls2, Hcalls, <- app_assoc|].
    split; [by rewrite Hbelow2|]. split.
    + intros [Hinv Hrestinv]%Forall_app. apply Forall2_app; auto.
    + intros [Hinv Hrestinv]%Forall_app Hm.
      destruct (Hgranted Hinv Hm) as [Hg Hm1].
      destruct (Hgranted2 Hrestinv Hm1) as [Hg2 Hm2].
      split; [|done]. by apply Forall2_app.
Qed.

Lemma chain_cases_clear :
  (forall s, subtree_cases (clear_stats_at s) = subtree_cases s) /\
  (forall p, chain_cases (clear_stats p) = chain_cases p).
Proof.
  apply suite_tree_ind.
  - intros [n tc k x st] IH. cbn [clear_stats_at subtree_cases test_cases child_suites] in *.
    by rewrite IH.
  - done.
  - intros s IHs IHx. cbn [clear_stats chain_cases].
    rewrite IHs. f_equal. destruct s as [n tc k x st]. apply IHx.
Qed.

Lemma top_cases_clear p : top_cases (clear_stats p) = top_cases p.
Proof.
  induction p as [|s IH] using suite_chain_ind; [done|].
  destruct s as [n tc k x st]. cbn [clear_stats clear_stats_at top_cases
    test_cases suite_next] in *. by rewrite IH.
Qed.

Lemma below_top_clear p : below_top (clear_stats p) = below_top p.
Proof.
  induction p as [|s IH] using suite_chain_ind; [done|].
  destruct s as [n tc k x st]. cbn [clear_stats clear_stats_at below_top
    child_suites suite_next] in *.
  by rewrite IH, (proj2 chain_cases_clear).
Qed.

Lemma top_cases_calculate p : top_cases (calculate_siblings p) = top_cases p.
Proof.
  by rewrite <- top_cases_clear, calculate_siblings_clear, top_cases_clear.
Qed.

Lemma below_top_calculate p : below_top (calculate_siblings p) = below_top p.
Proof.
  by rewrite <- below_top_clear, calculate_siblings_clear, below_top_clear.
Qed.

(** What [test_runner_run] returns: the runner after the loops and the
    statistics pass, and the report appended to the output. *)
Lemma test_runner_run_unfold {G} (code : test_func_t -> G -> test_status_t * G) r w :
  exists root1 w1 r',
    run_suites code (root_suite r) w = (root1, w1) /\
    root_suite r' = calculate_siblings root1 /\
    test_runner_run code (Some r) w
    = (Some r',
       mk_world (w_alloc w1) (w_user w1) (w_calls w1)
         (w_stdout w1 +:+ fst (print_test_results (Some (mk_runner root1 (global_stats r)))))
         (w_stderr w1)).
Proof.
  unfold test_runner_run.
  destruct (run_suites code (root_suite r) w) as [root1 w1].
  exists root1, w1. unfold print_test_results. cbn [root_suite global_stats].
  destruct root1 as [|s]; eexists; (split; [done|]); (split; [|done]); done.
Qed.

(** ** What the report shows *)

Lemma string_app_assoc (a b c : string) : (a +:+ b) +:+ c = a +:+ b +:+ c.
Proof.
  induction a as [|x a IH]; [done|].
  change (String x ((a +:+ b) +:+ c) = String x (a +:+ b +:+ c)).
  by rewrite IH.
Qed.

Lemma occurs_here x post : occurs x (x +:+ post).
Proof. by exists EmptyString, post. Qed.

Lemma occurs_l x a b : occurs x a -> occurs x (a +:+ b).
Proof.
  intros (pre & post & ->). exists pre, (post +:+ b).
  by rewrite !string_app_assoc.
Qed.

Lemma occurs_r x a b : occurs x b -> occurs x (a +:+ b).
Proof.
  intros (pre & post & ->). exists (a +:+ pre), post.
  by rewrite !string_app_assoc.
Qed.

Lemma case_line_set_next c x : case_line (set_case_next c x) = case_line c.
Proof. by destruct c. Qed.

Lemma print_cases_occurs p prefix no_children c :
  c ∈ case_list p -> occurs (case_line c) (print_cases p prefix no_children).
Proof.
  induction p as [|c0 IH] using case_chain_ind; cbn [case_list print_cases].
  - intros H. by apply elem_of_nil in H.
  - intros [-> | Hin]%elem_of_cons.
    + rewrite case_line_set_next. do 3 apply occurs_r.
      unfold case_line. rewrite <- !string_app_assoc. apply occurs_here.
    + do 7 apply occurs_r. by apply IH.
Qed.

Lemma print_tree_occurs :
  (forall s c, c ∈ subtree_cases s -> forall prefix is_last depth,
      occurs (case_line c) (print_tree_node_at s prefix is_last depth)) /\
  (forall p c, c ∈ chain_cases p -> forall prefix depth,
      occurs (case_line c) (print_siblings p prefix depth)).
Proof.
  apply suite_tree_ind.
  - intros [n tc k x st] IH c. cbn [subtree_cases test_cases child_suites] in *.
    intros Hin prefix is_last depth.
    cbn [print_tree_node_at test_cases child_suites suite_name stats].
    do 4 apply occurs_r. apply elem_of_app in Hin as [Hin|Hin].
    + apply occurs_r. by apply print_cases_occurs.
    + apply occurs_l. by apply IH.
  - intros c H. by apply elem_of_nil in H.
  - intros s IHs IHx c. cbn [chain_cases print_siblings].
    intros [Hin|Hin]%elem_of_app prefix depth.
    + apply occurs_l. by apply IHs.
    + apply occurs_r. by apply IHx.
Qed.

Lemma below_top_chain_cases p c : c ∈ below_top p -> c ∈ chain_cases p.
Proof.
  induction p as [|s IH] using suite_chain_ind; [done|].
  destruct s as [n tc k x st].
  cbn [below_top chain_cases subtree_cases child_suites test_cases suite_next] in *.
  rewrite !elem_of_app. intros [?|?]; auto.
Qed.

Lemma report_shows_cases root gs c :
  c ∈ chain_cases (calculate_siblings root) ->
  occurs (case_line c) (fst (print_test_results (Some (mk_runner root gs)))).
Proof.
  unfold print_test_results. cbn [root_suite].
  destruct root as [|s]; [intros H; by apply elem_of_nil in H|].
  intros Hin. cbn [fst]. apply occurs_r. by apply (proj2 print_tree_occurs).
Qed.

(** ** The run, claim by claim *)

(** C2, as stated, fails.  In the scenario both cases have a function and
    an empty log.  When the allocator refuses the append, Add's function
    is called and Add still has no outcome after the run; and Overflow,
    owned by a child suite, has no outcome after the run even when every
    request is granted. *)
Lemma run_leaves_due_cases_empty :
  omap due (top_cases (root_suite scenario_runner)) = [1%positive] /\
  omap due (below_top (root_suite scenario_runner)) = [2%positive] /\
  outcomes <$> top_cases (runner_root
     (fst (test_runner_run scenario_code (Some scenario_runner) refusing_world)))
  = [[]] /\
  outcomes <$> below_top (runner_root
     (fst (test_runner_run scenario_code (Some scenario_runner) granting_world)))
  = [[]].
Proof. repeat split; reflexivity. Qed.

Lemma grant_granting m :
  Forall (eq true) m -> fst (grant m) = true /\ Forall (eq true) (snd (grant m)).
Proof.
  destruct m as [|b m]; [done|]. intros [<- Hm]%Forall_cons. done.
Qed.

(** With an allocator that grants every request no append of a run is
    refused. *)
Lemma run_outcomes_granted {G} (code : test_func_t -> G -> test_status_t * G) cs :
  forall g m, Forall (eq true) m -> run_outcomes code g m cs = run_logs code g cs.
Proof.
  induction cs as [|c cs IH]; intros g m Hm; [done|].
  cbn [run_outcomes run_logs]. destruct (due c) as [f|]; [|by rewrite IH].
  destruct (grant_granting m Hm) as [Hok Hm'].
  destruct (0 <? result_capacity c); [by rewrite IH|].
  by rewrite Hok, IH.
Qed.

Lemma run_outcomes_unlink {G} (code : test_func_t -> G -> test_status_t * G)
    g m c x rest :
  run_outcomes code g m (set_case_next c x :: rest)
  = run_outcomes code g m (c :: rest).
Proof. by destruct c. Qed.

(** One step of the inner loop, exactly: the log the case is left with,
    and the states the next case finds. *)
Lemma run_case_exact {G} (code : test_func_t -> G -> test_status_t * G) c w c' w' :
  run_case code c w = (c', w') ->
  case_inv c ->
  forall rest,
    run_outcomes code (w_user w) (w_alloc w) (c :: rest)
    = outcomes c' :: run_outcomes code (w_user w') (w_alloc w') rest.
Proof.
  unfold run_case. cbn [run_outcomes]. unfold due.
  destruct (test_func c) as [f|]; [|by intros [= <- <-]].
  destruct (result_count c =? 0) eqn:Hempty; [|by intros [= <- <-]].
  apply Z.eqb_eq in Hempty.
  destruct (code f (w_user w)) as [result g] eqn:Hcall.
  destruct (add_result_at c result (w_alloc w)) as [[r c1] m] eqn:Hadd.
  intros [= <- <-] Hinv rest. cbn [w_user w_alloc fst snd].
  assert (Hnone : outcomes c = []) by (unfold outcomes; by rewrite Hempty).
  destruct (add_result_at_inv _ _ _ _ _ _ Hinv Hadd) as (_ & _ & Hres).
  destruct Hinv as (Hk & Hcap & Hlen).
  revert Hadd. unfold add_result_at.
  destruct (0 <? result_capacity c) eqn:Hroom.
  - apply Z.ltb_lt in Hroom.
    destruct (result_capacity c <=? result_count c) eqn:Efull;
      [apply Z.leb_le in Efull; lia|].
    intros [= <- _ <-].
    destruct Hres as [[? _]|(_ & -> & _)]; [lia|]. by rewrite Hnone.
  - apply Z.ltb_ge in Hroom.
    destruct (result_capacity c <=? result_count c) eqn:Efull;
      [|apply Z.leb_gt in Efull; lia].
    assert (Hsize : new_size c = 32).
    { unfold new_size, new_capacity.
      replace (result_capacity c) with 0 by lia. reflexivity. }
    rewrite Hsize. unfold realloc.
    change (PTRDIFF_MAX <? 32) with false. cbv iota.
    destruct (grant (w_alloc w)) as [[] m1]; cbn [fst snd].
    + intros [= <- _ <-].
      destruct Hres as [[? _]|(_ & -> & _)]; [lia|]. by rewrite Hnone.
    + intros [= _ <- <-]. by rewrite Hnone.
Qed.

(** The inner loop and the outer loop, exactly. *)
Lemma run_cases_exact {G} (code : test_func_t -> G -> test_status_t * G) p :
  forall w p' w',
    run_cases code p w = (p', w') ->
    Forall case_inv (case_list p) ->
    forall rest,
      run_outcomes code (w_user w) (w_alloc w) (case_list p ++ rest)
      = (outcomes <$> case_list p') ++ run_outcomes code (w_user w') (w_alloc w') rest.
Proof.
  induction p as [|c IH] using case_chain_ind; intros w p' w'.
  - by intros [= <- <-].
  - cbn [run_cases].
    destruct (run_case code c w) as [c1 w1] eqn:Hc.
    destruct (run_cases code (case_next c) w1) as [rest1 w2] eqn:Hrest.
    intros [= <- <-].
    assert (Hlist : case_list (Case (set_case_next c1 rest1))
                    = set_case_next c1 NULL_case :: case_list rest1)
      by (by destruct c1).
    rewrite Hlist. cbn [case_list].
    intros [Hinv Hrestinv]%Forall_cons rest. apply case_inv_set_next in Hinv.
    cbn [app fmap list_fmap]. rewrite outcomes_set_next, run_outcomes_unlink.
    rewrite (run_case_exact _ _ _ _ _ Hc Hinv). f_equal.
    by apply IH.
Qed.

Lemma run_suites_exact {G} (code : test_func_t -> G -> test_status_t * G) p :
  forall w p' w',
    run_suites code p w = (p', w') ->
    Forall case_inv (top_cases p) ->
    forall rest,
      run_outcomes code (w_user w) (w_alloc w) (top_cases p ++ rest)
      = (outcomes <$> top_cases p') ++ run_outcomes code (w_user w') (w_alloc w') rest.
Proof.
  induction p as [|s IH] using suite_chain_ind; intros w p' w'.
  - by intros [= <- <-].
  - cbn [run_suites].
    destruct (run_cases code (test_cases s) w) as [cases w1] eqn:Hcases.
    destruct (run_suites code (suite_next s) w1) as [rest1 w2] eqn:Hrest.
    intros [= <- <-]. cbn [top_cases test_cases suite_next].
    intros [Hinv Hrestinv]%Forall_app rest.
    rewrite <- app_assoc, (run_cases_exact _ _ _ _ _ Hcases Hinv).
    rewrite fmap_app, <- app_assoc. f_equal. by apply IH.
Qed.

(** C2, amended: for the cases owned directly by the suites of the
    runner's list, whose result arrays are well formed.  The run visits
    them in list order, with the state the test functions work on and
    the state of the allocator passed from one to the next.  A case with
    a function and an empty log has its function called once, on the
    state the calls before it left, and then holds exactly one outcome,
    the value that call returned, unless the append is refused for lack
    of memory (the case has no array yet and the allocator refuses the
    request), in which case it is left exactly as it was, without
    outcome; with an allocator that grants every request no append is
    refused.  Every other case (outcomes recorded beforehand, or no
    function) is left exactly as it was and its function is not called:
    the calls made are those due, one each, in list order. *)
Theorem run_top_level_cases {G : Type}
    (code : test_func_t -> G -> test_status_t * G) (r : test_runner) (w : world G) :
  Forall case_inv (top_cases (root_suite r)) ->
  exists r' w',
    test_runner_run code (Some r) w = (Some r', w') /\
    outcomes <$> top_cases (root_suite r')
    = run_outcomes code (w_user w) (w_alloc w) (top_cases (root_suite r)) /\
    Forall2 (fun c c' => due c = None \/ outcomes c' = [] -> c' = c)
            (top_cases (root_suite r)) (top_cases (root_suite r')) /\
    (Forall (eq true) (w_alloc w) ->
     outcomes <$> top_cases (root_suite r')
     = run_logs code (w_user w) (top_cases (root_suite r))) /\
    w_calls w' = w_calls w ++ omap due (top_cases (root_suite r)).
Proof.
  intros Hinv.
  destruct (test_runner_run_unfold code r w) as (root1 & w1 & r' & Hrun & Hroot & ->).
  destruct (run_suites_spec _ _ _ _ _ Hrun) as (Hcalls & _ & Hran & _).
  pose proof (run_suites_exact _ _ _ _ _ Hrun Hinv []) as Hexact.
  rewrite !app_nil_r in Hexact.
  eexists _, _. split; [done|].
  rewrite Hroot, top_cases_calculate. cbn [w_calls].
  split; [done|]. split; [|split; [|done]].
  - eapply Forall2_impl; [by apply Hran|].
    intros c c'. unfold ran. destruct (due c) as [f|].
    + intros [[g Hg]| ->] [?|Hnone]; try done. by rewrite Hg in Hnone.
    + by intros -> _.
  - intros Hm. by rewrite <- Hexact, run_outcomes_granted.
Qed.

Lemma run_top_level_cases_witness :
  exists r' w',
    test_runner_run flip_code (Some flip_runner) flip_world = (Some r', w') /\
    outcomes <$> top_cases (root_suite r')
    = run_outcomes flip_code (w_user flip_world) (w_alloc flip_world)
        (top_cases (root_suite flip_runner)) /\
    Forall2 (fun c c' => due c = None \/ outcomes c' = [] -> c' = c)
            (top_cases (root_suite flip_runner)) (top_cases (root_suite r')) /\
    (Forall (eq true) (w_alloc flip_world) ->
     outcomes <$> top_cases (root_suite r')
     = run_logs flip_code (w_user flip_world) (top_cases (root_suite flip_runner))) /\
    w_calls w' = w_calls flip_world ++ omap due (top_cases (root_suite flip_runner)).
Proof.
  apply (run_top_level_cases flip_code flip_runner flip_world).
  repeat constructor; unfold INT_MAX; simpl; lia.
Defined.

(** C3: the calls a run makes are those due for the cases owned directly
    by the suites of the runner's list, and no others; every case owned
    by a child suite, at any depth, is after the run the struct it was
    before (same log, same everything).  The passes that follow do reach
    the child suites: every suite at every depth ends with the
    statistics of its subtree, and the report has the line of every case
    below the top level. *)
Theorem run_skips_child_suites {G : Type}
    (code : test_func_t -> G -> test_status_t * G) (r : test_runner) (w : world G) :
  exists r' w',
    test_runner_run code (Some r) w = (Some r', w') /\
    w_calls w' = w_calls w ++ omap due (top_cases (root_suite r)) /\
    below_top (root_suite r') = below_top (root_suite r) /\
    Forall stats_fresh (chain_suites (root_suite r')) /\
    (forall c, c ∈ below_top (root_suite r') -> occurs (case_line c) (w_stdout w')).
Proof.
  destruct (test_runner_run_unfold code r w) as (root1 & w1 & r' & Hrun & Hroot & ->).
  destruct (run_suites_spec _ _ _ _ _ Hrun) as (Hcalls & Hbelow & _).
  eexists _, _. split; [done|].
  rewrite Hroot, below_top_calculate. cbn [w_calls w_stdout].
  split; [done|]. split; [done|]. split; [apply calculate_siblings_fresh|].
  intros c Hc. apply occurs_r. apply report_shows_cases.
  apply below_top_chain_cases. by rewrite below_top_calculate.
Qed.

(** * Further properties *)

(** ** The result array *)

(** Induction over the cases the public operations can produce: a
    property of the created struct that every [test_case_add_result] and
    every relinking keeps. *)
Lemma reachable_case_ind_add (P : test_case -> Prop) :
  (forall name f, P (mk_case name f None 0 0 NULL_case)) ->
  (forall c status m r c' m', P c -> add_result_at c status m = (r, c', m') -> P c') ->
  (forall c x, P c -> P (set_case_next c x)) ->
  forall c, reachable_case c -> P c.
Proof.
  intros Hnew Hadd Hlink.
  assert (Hloop : forall n args c m r p m',
             P c -> add_results_loop n args (Case c) m = (r, p, m') ->
             exists c', p = Case c' /\ P c').
  { induction n as [|n IH]; intros args c m r p m' Hc; simpl.
    - intros [= <- <- <-]. eauto.
    - destruct args as [|status args]; [intros [= <- <- <-]; eauto|].
      destruct (add_result_at c status m) as [[r1 c1] m1] eqn:H1.
      pose proof (Hadd _ _ _ _ _ _ Hc H1) as Hc1.
      destruct r1; [by apply IH | intros [= <- <- <-]; eauto ..]. }
  induction 1 as [name f m c m' Hc | c status m r c' m' _ IH H1
                 | c count args m r c' m' _ IH Hva | c x _ IH
                 | G code c w c' w' _ IH Hrun].
  - unfold test_case_create in Hc.
    destruct (grant m) as [[] m1]; simpl in Hc; [|done].
    destruct (grant m1) as [[] m2]; simpl in Hc; [|done].
    injection Hc as <- _. apply Hnew.
  - apply add_result_cases in H1 as (c1 & [= <-] & H1). by eapply Hadd.
  - unfold test_case_add_results_va in Hva.
    destruct (count <=? 0); [by injection Hva as _ <- _|].
    apply Hloop in Hva as (c1 & [= <-] & ?); done.
  - by apply Hlink.
  - unfold run_case in Hrun.
    destruct (test_func c) as [f|]; [|by injection Hrun as <- _].
    destruct (result_count c =? 0); [|by injection Hrun as <- _].
    destruct (code f (w_user w)) as [result g].
    destruct (add_result_at c result (w_alloc w)) as [[r c1] m] eqn:H1.
    injection Hrun as <- _. by eapply Hadd.
Qed.

(** Where [test_case_add_result] grows the array and where it does not. *)
Lemma add_result_at_growth c status m r c' m' :
  case_inv c ->
  add_result_at c status m = (r, c', m') ->
  c' = c \/
  (result_count c' = result_count c + 1 /\
   ((result_count c < result_capacity c /\
     result_capacity c' = result_capacity c /\
     (results c' = None <-> results c = None)) \/
    (result_count c = result_capacity c /\
     result_capacity c' = (if result_capacity c =? 0 then 8 else 2 * result_capacity c) /\
     results c' <> None))).
Proof.
  intros Hinv Hadd.
  destruct (add_result_at_inv _ _ _ _ _ _ Hinv Hadd) as (_ & _ & [[_ ->]|(_ & _ & Hcnt)]);
    [by left|].
  right. split; [done|]. destruct Hinv as (Hk & Hcap & Hlen).
  revert Hadd. unfold add_result_at.
  destruct (result_capacity c <=? result_count c) eqn:Efull.
  - apply Z.leb_le in Efull.
    destruct (realloc _ _ m) as [[a|] m1] eqn:Ere; intros [= <- <- <-].
    + right. split; [lia|].
      apply realloc_granted in Ere as [Hsize _].
      destruct (push_result_fields
                  (set_result_capacity (set_results c (Some a)) (new_capacity c)) status)
        as (_ & _ & -> & _ & _ & ->).
      split.
      * destruct c as [n f r0 k cap x]. cbn [set_results set_result_capacity
          result_capacity] in *. unfold new_size, new_capacity in *.
        cbn [result_capacity] in *.
        destruct (cap =? 0) eqn:E0; [done|]. apply Z.eqb_neq in E0.
        destruct (Z_le_gt_dec (2 * cap) INT_MAX) as [Hd|Hd].
        -- by destruct (double_request cap) as [-> _]; [lia|lia|].
        -- pose proof (double_request_overflow cap). lia.
      * destruct c as [n f r0 k cap x]. cbn. unfold store.
        by destruct (k <? 0).
    + lia.
  - apply Z.leb_gt in Efull. intros [= <- <- <-]. left.
    destruct (push_result_fields c status) as (_ & _ & -> & _ & _ & ->).
    split; [done|]. split; [done|].
    unfold store. destruct (result_count c <? 0); [done|].
    by destruct (results c).
Qed.

Lemma add_results_loop_granted n : forall c m args,
  case_inv c -> Forall (eq true) m ->
  (n <= length args)%nat ->
  result_count c + Z.of_nat n <= 1073741824 ->
  exists c' m',
    add_results_loop n args (Case c) m = (0, Case c', m') /\
    outcomes c' = outcomes c ++ take n args /\
    result_count c' = result_count c + Z.of_nat n /\
    case_inv c'.
Proof.
  induction n as [|n IH]; intros c m args Hinv Hm Hn Hs.
  - exists c, m. cbn [add_results_loop]. rewrite take_0, app_nil_r.
    split; [by destruct args|]. split; [done|]. split; [lia|done].
  - destruct args as [|status args]; [simpl in Hn; lia|].
    cbn [add_results_loop]. rewrite add_result_unfold.
    destruct (add_result_at_granted c status m Hinv Hm) as (c1 & m1 & Hadd & Hm1).
    { pose proof Hinv as (Hk & Hcap & _). unfold INT_MAX in *.
      destruct (Z_lt_le_dec (result_count c) (result_capacity c)); [by left|].
      right. lia. }
    rewrite Hadd.
    destruct (add_result_at_inv _ _ _ _ _ _ Hinv Hadd)
      as (Hinv1 & _ & [[? _]|(_ & Hout & Hcnt)]); [lia|].
    destruct (IH c1 m1 args Hinv1 Hm1) as (c' & m' & Hloop & Hout' & Hcnt' & Hinv');
      [simpl in Hn; lia | lia |].
    exists c', m'. split; [done|].
    rewrite Hout', Hout, Hcnt', Hcnt, <- app_assoc. cbn [take].
    split; [done|]. split; [lia|done].
Qed.

(** X1: a batch with an allocator that grants every request.  For a
    count between one and the number of outcomes supplied, and a log that
    stays within [2^30] outcomes, the call answers 0 and the log becomes
    the old log followed by the first [count] outcomes of the batch, in
    order; the invariant of the array is kept. *)
Theorem add_results_va_appends c count args m :
  case_inv c -> Forall (eq true) m ->
  0 < count <= Z.of_nat (length args) ->
  result_count c + count <= 1073741824 ->
  exists c' m',
    test_case_add_results_va (Case c) count args m = (0, Case c', m') /\
    outcomes c' = outcomes c ++ take (Z.to_nat count) args /\
    result_count c' = result_count c + count /\
    case_inv c'.
Proof.
  intros Hinv Hm Hcount Hsmall.
  unfold test_case_add_results_va.
  destruct (count <=? 0) eqn:E; [apply Z.leb_le in E; lia|]. clear E.
  destruct (add_results_loop_granted (Z.to_nat count) c m args Hinv Hm)
    as (c' & m' & Hloop & Hout & Hcnt & Hinv'); [lia | lia |].
  exists c', m'. rewrite Z2Nat.id in Hcnt by lia. done.
Qed.

Lemma add_results_va_appends_witness :
  exists c' m',
    test_case_add_results_va (Case fresh_case) 3
      [STATUS_SUCCESS; STATUS_BUILD_ERROR; STATUS_SUCCESS; STATUS_RUNTIME_ERROR] []
    = (0, Case c', m') /\
    outcomes c' = outcomes fresh_case ++
                  take (Z.to_nat 3)
                    [STATUS_SUCCESS; STATUS_BUILD_ERROR; STATUS_SUCCESS; STATUS_RUNTIME_ERROR] /\
    result_count c' = result_count fresh_case + 3 /\
    case_inv c'.
Proof.
  apply (add_results_va_appends fresh_case 3
           [STATUS_SUCCESS; STATUS_BUILD_ERROR; STATUS_SUCCESS; STATUS_RUNTIME_ERROR] []).
  - unfold case_inv, INT_MAX. simpl. lia.
  - constructor.
  - simpl. lia.
  - simpl. lia.
Defined.

Lemma pow2_succ (k : nat) : 2 ^ Z.of_nat (S k) = 2 * 2 ^ Z.of_nat k.
Proof. rewrite Nat2Z.inj_succ, Z.pow_succ_r by lia. done. Qed.

Lemma reachable_case_shape c :
  reachable_case c ->
  case_inv c /\ capacity_shape c /\
  Z.of_nat (length (outcomes c)) = result_count c.
Proof.
  induction 1 as [name f | c status m r c' m' (Hinv & Hshape & Hlen) Hadd
                 | c x IH] using reachable_case_ind_add.
  - unfold case_inv, capacity_shape, outcomes, INT_MAX. simpl.
    repeat split; auto; lia.
  - destruct (add_result_at_inv _ _ _ _ _ _ Hinv Hadd) as (Hinv' & _ & Hres).
    split; [done|].
    destruct (add_result_at_growth _ _ _ _ _ _ Hinv Hadd) as [->|(Hcnt & Hgrow)];
      [done|].
    split.
    + destruct Hshape as (Hpow & Htight & Hnull). pose proof Hinv as (Hk & _).
      unfold capacity_shape.
      destruct Hgrow as [(Hroom & -> & Hres')|(Hfull & Hcap' & Hres')].
      * rewrite Hres', Hcnt. split; [done|]. split; [lia|done].
      * rewrite Hcap', Hcnt. destruct (result_capacity c =? 0) eqn:E0.
        -- split; [right; by exists 0%nat|]. split; [left; lia|]. split; [done|lia].
        -- apply Z.eqb_neq in E0. destruct Hpow as [?|[k Hk8]]; [done|].
           split; [right; exists (S k); rewrite pow2_succ; lia|].
           split; [right; lia|]. split; [done|lia].
    + destruct Hres as [[_ Heq]|(_ & -> & ->)]; [rewrite Heq in Hcnt; lia|].
      rewrite length_app. simpl. lia.
  - destruct IH as (Hinv & Hshape & Hlen). destruct c as [n f r k cap x0].
    done.
Qed.

(** X2: the capacity of every case the public operations can produce is
    zero (and then there is no array) or 8 doubled some number of times;
    beyond the initial 8 slots it is less than twice the number of
    recorded outcomes; and [result_count] is the number of recorded
    outcomes. *)
Theorem reachable_capacity c :
  reachable_case c ->
  capacity_shape c /\ Z.of_nat (length (outcomes c)) = result_count c.
Proof. intros H. by destruct (reachable_case_shape c H) as (_ & ? & ?). Qed.

Lemma reachable_capacity_witness :
  capacity_shape full_case /\
  Z.of_nat (length (outcomes full_case)) = result_count full_case.
Proof.
  apply (reachable_capacity full_case).
  apply (reach_add_results_va fresh_case 8 (replicate 8 STATUS_SUCCESS) [] 0 full_case []).
  - apply (reach_create "Overflow" (Some 1%positive) [] fresh_case []). reflexivity.
  - reflexivity.
Defined.

(** ** Glyphs *)

Lemma string_app_empty_r (a : string) : a +:+ EmptyString = a.
Proof.
  induction a as [|x a IH]; [done|].
  change (String x (a +:+ EmptyString) = String x a). by rewrite IH.
Qed.

Lemma length_omap_le {A B} (g : A -> option B) l :
  (length (omap g l) <= length l)%nat.
Proof.
  induction l as [|x l IH]; [done|].
  change (omap g (x :: l)) with
    (match g x with Some y => y :: omap g l | None => omap g l end).
  destruct (g x); simpl; lia.
Qed.

Lemma fmap_omap_full {A B} (g : A -> option B) l :
  length (omap g l) = length l -> g <$> l = Some <$> omap g l.
Proof.
  induction l as [|x l IH]; [done|].
  pose proof (length_omap_le g l) as Hle.
  change (omap g (x :: l)) with
    (match g x with Some y => y :: omap g l | None => omap g l end).
  cbn [fmap list_fmap].
  destruct (g x); simpl; intros Hlen; [|lia].
  f_equal. apply IH. lia.
Qed.

Lemma foldl_glyphs l : forall out,
  foldl (fun out o =>
           out +:+ get_status_color o +:+ String (get_status_char o) EmptyString +:+
           ANSI_RESET +:+ " ") out (Some <$> l)
  = out +:+ glyphs l.
Proof.
  induction l as [|status l IH]; intros out; cbn [fmap list_fmap foldl glyphs].
  - by rewrite string_app_empty_r.
  - rewrite IH. unfold glyph. by rewrite !string_app_assoc.
Qed.

Lemma lacks_app a x y : lacks a x -> lacks a y -> lacks a (x +:+ y).
Proof.
  intros Hx Hy. induction x as [|b x IH]; [done|].
  change ((String b x) +:+ y) with (String b (x +:+ y)).
  destruct Hx as [? ?]. split; [done|]. by apply IH.
Qed.

Lemma glyphs_lack_fallback l :
  Forall is_status l -> lacks "?"%char (glyphs l).
Proof.
  induction 1 as [|status l Hs _ IH]; [done|].
  cbn [glyphs]. apply lacks_app; [|done].
  each_status status Hs; cbv; repeat split; discriminate.
Qed.

Lemma glyphs_occurs status l : status ∈ l -> occurs (glyph status) (glyphs l).
Proof.
  induction l as [|x l IH]; [intros H; by apply elem_of_nil in H|].
  cbn [glyphs]. intros [->|Hin]%elem_of_cons.
  - apply occurs_here.
  - apply occurs_r. by apply IH.
Qed.

(** X3: for a case the public operations can produce, the results
    printed on its line are one glyph per recorded outcome, in log
    order: the colour and letter that [get_status_color] and
    [get_status_char] give for the recorded value, the colour reset and
    a space.  When every recorded outcome is one of the six enumerators
    the fallback [?] is not printed; a recorded value that is none of
    them (nothing checks what [test_case_add_result] is given, or what a
    test function returns) is drawn as an uncoloured [?]. *)
Theorem print_results_glyphs c :
  reachable_case c ->
  print_results c = glyphs (outcomes c) /\
  (Forall is_status (outcomes c) -> lacks "?"%char (print_results c)) /\
  (forall status, status ∈ outcomes c -> ~ is_status status ->
     occurs (ANSI_RESET +:+ "?" +:+ ANSI_RESET +:+ " ") (print_results c)).
Proof.
  intros Hreach. destruct (reachable_case_shape c Hreach) as (_ & _ & Hlen).
  assert (Heq : print_results c = glyphs (outcomes c)).
  { unfold print_results.
    rewrite <- (foldl_fmap
      (fun out o => out +:+ get_status_color o +:+
                    String (get_status_char o) EmptyString +:+ ANSI_RESET +:+ " ")
      EmptyString (seqZ 0 (result_count c)) (load c)).
    rewrite fmap_omap_full.
    - rewrite loads_are_outcomes. apply foldl_glyphs.
    - rewrite loads_are_outcomes, length_seqZ. lia. }
  rewrite Heq. split; [done|]. split; [apply glyphs_lack_fallback|].
  intros status Hin Hodd.
  pose proof (glyphs_occurs status _ Hin) as Hocc.
  unfold glyph in Hocc.
  destruct (switch_default status Hodd) as (_ & Hcolor & Hchar).
  by rewrite Hcolor, Hchar in Hocc.
Qed.

Lemma print_results_glyphs_witness :
  print_results odd_case = glyphs (outcomes odd_case) /\
  (Forall is_status (outcomes odd_case) -> lacks "?"%char (print_results odd_case)) /\
  (forall status, status ∈ outcomes odd_case -> ~ is_status status ->
     occurs (ANSI_RESET +:+ "?" +:+ ANSI_RESET +:+ " ") (print_results odd_case)).
Proof.
  apply (print_results_glyphs odd_case).
  apply (reach_add_results_va fresh_case 2 [STATUS_SUCCESS; 99] [] 0 odd_case []).
  - apply (reach_create "Overflow" (Some 1%positive) [] fresh_case []). reflexivity.
  - reflexivity.
Defined.

Lemma starts_with_sound x : forall s,
  starts_with x s = true -> exists post, s = x +:+ post.
Proof.
  induction x as [|a x IH]; intros s; cbn [starts_with].
  - by exists s.
  - destruct s as [|b s]; [done|].
    intros [Hab Hrest]%andb_prop. apply Ascii.eqb_eq in Hab as ->.
    destruct (IH _ Hrest) as [post ->]. by exists post.
Qed.

Lemma occurs_in_sound x s : occurs_in x s = true -> occurs x s.
Proof.
  induction s as [|b s IH]; cbn [occurs_in].
  - rewrite orb_false_r. intros [post ->]%starts_with_sound. apply occurs_here.
  - intros [H|H]%orb_prop.
    + apply starts_with_sound in H as [post ->]. apply occurs_here.
    + destruct (IH H) as (pre & post & ->). by exists (String b pre), post.
Qed.

(** X4: letter and colour together tell the six statuses apart; none of
    them is drawn with the fallback letter [?] or without a colour, while
    every value that is not one of the six is drawn with the fallback
    letter and no colour; and [print_legend] shows, for every status,
    exactly the letter and colour the results are drawn with, next to its
    meaning. *)
Theorem legend_matches_glyphs :
  (forall s1 s2,
      is_status s1 -> is_status s2 ->
      get_status_color (Some s1) = get_status_color (Some s2) ->
      get_status_char (Some s1) = get_status_char (Some s2) -> s1 = s2) /\
  (forall s, is_status s ->
             get_status_char (Some s) <> get_status_char None /\
             get_status_color (Some s) <> get_status_color None) /\
  (forall s, ~ is_status s ->
             get_status_char (Some s) = "?"%char /\
             get_status_color (Some s) = ANSI_RESET) /\
  (forall s, is_status s -> occurs (legend_entry s) print_legend).
Proof.
  split; [|split; [|split]].
  - intros s1 s2 H1 H2. each_status s1 H1; each_status s2 H2;
      by (done || (intros [= ?]) || (intros _ [= ?])).
  - intros s Hs. each_status s Hs; by split.
  - intros s Hs. by destruct (switch_default s Hs) as (_ & ? & ?).
  - intros s Hs. each_status s Hs; apply occurs_in_sound; vm_compute; reflexivity.
Qed.

(** ** Statistics *)

(** The pass does not read the statistics it finds. *)
Lemma calculate_of_cleared :
  (forall s, calculate_suite_stats_at (clear_stats_at s)
             = set_suite_next (calculate_suite_stats_at s) (clear_stats (suite_next s))) /\
  (forall p st, calculate_children (clear_stats p) st = calculate_children p st).
Proof.
  apply suite_tree_ind.
  - intros [n tc k x st0] IH.
    cbn [clear_stats_at calculate_suite_stats_at child_suites test_cases
         suite_name suite_next] in *.
    rewrite IH.
    by destruct (calculate_children k (tally_cases tc zero_stats)).
  - done.
  - intros s IHs IHx st. cbn [clear_stats calculate_children]. rewrite IHs.
    destruct (set_suite_next_fields (calculate_suite_stats_at s)
                (clear_stats (suite_next s))) as (_ & _ & _ & _ & -> & _).
    assert (Hnext : suite_next (clear_stats_at s) = clear_stats (suite_next s))
      by (by destruct s).
    rewrite Hnext, IHx.
    destruct (calculate_children (suite_next s) _) as [rest st1].
    by rewrite set_suite_next_twice.
Qed.

Lemma calculate_siblings_of_cleared p :
  calculate_siblings (clear_stats p) = calculate_siblings p.
Proof.
  induction p as [|s IH] using suite_chain_ind; [done|].
  cbn [clear_stats calculate_siblings].
  rewrite (proj1 calculate_of_cleared), set_suite_next_twice.
  assert (Hnext : suite_next (clear_stats_at s) = clear_stats (suite_next s))
    by (by destruct s).
  by rewrite Hnext, IH.
Qed.

(** X5: what the [stats] fields held before a render never shows.  Two
    runners that agree on names, cases, logs and shape get the same
    report, byte for byte, and are left with the same suites, whatever
    their statistics were. *)
Theorem stale_stats_never_show (r1 r2 : test_runner) :
  clear_stats (root_suite r1) = clear_stats (root_suite r2) ->
  fst (print_test_results (Some r1)) = fst (print_test_results (Some r2)) /\
  runner_root (snd (print_test_results (Some r1)))
  = runner_root (snd (print_test_results (Some r2))).
Proof.
  intros Hsame.
  assert (Hcalc : calculate_siblings (root_suite r1) = calculate_siblings (root_suite r2)).
  { by rewrite <- (calculate_siblings_of_cleared (root_suite r1)), Hsame,
         calculate_siblings_of_cleared. }
  rewrite !print_test_results_root. cbn [runner_root]. split; [|done].
  unfold print_test_results.
  destruct (root_suite r1) as [|s1], (root_suite r2) as [|s2]; try done.
  cbn [fst]. by rewrite Hcalc.
Qed.

Lemma stale_stats_never_show_witness :
  fst (print_test_results (Some garbled_runner)) = fst (print_test_results (Some tidy_runner)) /\
  runner_root (snd (print_test_results (Some garbled_runner)))
  = runner_root (snd (print_test_results (Some tidy_runner))).
Proof.
  apply (stale_stats_never_show garbled_runner tidy_runner). reflexivity.
Defined.

Lemma length_filter_split (l : list test_status_t) :
  (length (filter is_status l) + length (filter (fun v => ~ is_status v) l)
   = length l)%nat.
Proof.
  induction l as [|v l IH]; [done|].
  rewrite !filter_cons.
  destruct (decide (is_status v)), (decide (~ is_status v)); cbn [length]; try lia;
    contradiction.
Qed.

Lemma count_of_all l :
  count_of STATUS_SUCCESS l + count_of STATUS_UNEXPECTED_OUTPUT l +
  count_of STATUS_EXPECTED_BUILD_ERROR l + count_of STATUS_BUILD_ERROR l +
  count_of STATUS_EXPECTED_RUNTIME_ERROR l + count_of STATUS_RUNTIME_ERROR l
  = Z.of_nat (length (filter is_status l)).
Proof.
  induction l as [|s l IH]; [done|].
  rewrite !count_of_cons, filter_cons.
  destruct (decide (is_status s)) as [Hs|Hs]; cbn [length]; unfold is_status in Hs;
    repeat match goal with
           | |- context [decide (?a = ?b)] => destruct (decide (a = b))
           end; lia.
Qed.

(** X6: every recorded outcome that is one of the six enumerators is
    counted once, in one counter, and a recorded value that is none of
    them is counted nowhere.  After [calculate_suite_stats] on the root
    of a tree with at most [INT_MAX] recorded outcomes, the six counters
    of every suite of the given tree add up to the number of enumerators
    among the outcomes recorded in its subtree; so they fall short of
    the number of recorded outcomes by the number of other values. *)
Theorem stats_add_up (root : suite_ptr) :
  Z.of_nat (length (tree_outcomes root)) <= INT_MAX ->
  Forall2 (fun S0 S =>
             clear_stats_at S = clear_stats_at S0 /\
             total (stats S)
             = Z.of_nat (length (filter is_status (subtree_outcomes S0))) /\
             total (stats S)
             = Z.of_nat (length (subtree_outcomes S0))
               - Z.of_nat (length (filter (fun v => ~ is_status v) (subtree_outcomes S0))))
          (tree_suites root) (tree_suites (calculate_suite_stats root)).
Proof.
  destruct root as [|s]; [intros _; constructor|].
  cbn [tree_outcomes calculate_suite_stats tree_suites]. intros Hsmall.
  destruct (proj1 calculate_tree s) as (_ & _ & _ & Hout & _).
  eapply Forall2_impl; [apply calculate_paired|].
  intros S0 S (Hsame & HS & Hfresh). split; [done|].
  destruct (same_but_stats _ _ Hsame) as [_ Hsub].
  assert (Hk : forall k, is_status k ->
                 stat k (stats S) = count_of k (subtree_outcomes S0)).
  { intros k Hk. rewrite (Hfresh k Hk), Hsub.
    pose proof (proj1 (subtree_count_le k) _ _ HS) as Hle.
    rewrite Hout, Hsub in Hle.
    pose proof (count_of_bounds k (subtree_outcomes S0)).
    pose proof (count_of_bounds k (subtree_outcomes s)).
    apply to_int_id. lia. }
  assert (Htotal : total (stats S)
                   = Z.of_nat (length (filter is_status (subtree_outcomes S0)))).
  { rewrite <- count_of_all. unfold total.
    rewrite <- (Hk STATUS_SUCCESS), <- (Hk STATUS_UNEXPECTED_OUTPUT),
      <- (Hk STATUS_EXPECTED_BUILD_ERROR), <- (Hk STATUS_BUILD_ERROR),
      <- (Hk STATUS_EXPECTED_RUNTIME_ERROR), <- (Hk STATUS_RUNTIME_ERROR)
      by (unfold is_status; lia).
    done. }
  split; [done|]. rewrite Htotal.
  pose proof (length_filter_split (subtree_outcomes S0)) as Hsplit. lia.
Qed.

Lemma stats_add_up_witness :
  Forall2 (fun S0 S =>
             clear_stats_at S = clear_stats_at S0 /\
             total (stats S)
             = Z.of_nat (length (filter is_status (subtree_outcomes S0))) /\
             total (stats S)
             = Z.of_nat (length (subtree_outcomes S0))
               - Z.of_nat (length (filter (fun v => ~ is_status v) (subtree_outcomes S0))))
          (tree_suites (Suite odd_tree))
          (tree_suites (calculate_suite_stats (Suite odd_tree))).
Proof.
  apply (stats_add_up (Suite odd_tree)). vm_compute. discriminate.
Defined.

(** ** Building the tree *)

Lemma set_child_suites_twice s k1 k2 :
  set_child_suites (set_child_suites s k1) k2 = set_child_suites s k2.
Proof. by destruct s. Qed.

Lemma set_test_cases_twice s c1 c2 :
  set_test_cases (set_test_cases s c1) c2 = set_test_cases s c2.
Proof. by destruct s. Qed.

(** X7: additions compose.  Adding newly created structs one after
    another leaves the parent's list as the old list followed by the
    added structs in the order of the calls, for child suites, for test
    cases and for the runner's suites; nothing else in the parent
    changes. *)
Theorem adds_keep_call_order :
  (forall cs p,
      Forall (fun c => suite_next c = NULL_suite) cs ->
      exists p',
        foldl (fun parent c => test_suite_add_child parent (Suite c)) (Suite p) cs
        = Suite p' /\
        suite_list (child_suites p') = suite_list (child_suites p) ++ cs /\
        set_child_suites p' (child_suites p) = p) /\
  (forall cs s,
      Forall (fun c => case_next c = NULL_case) cs ->
      exists s',
        foldl (fun suite c => test_suite_add_test_case suite (Case c)) (Suite s) cs
        = Suite s' /\
        case_list (test_cases s') = case_list (test_cases s) ++ cs /\
        set_test_cases s' (test_cases s) = s) /\
  (forall ss r,
      Forall (fun s => suite_next s = NULL_suite) ss ->
      exists r',
        foldl (fun runner s => test_runner_add_suite runner (Suite s)) (Some r) ss
        = Some r' /\
        suite_list (root_suite r') = suite_list (root_suite r) ++ ss /\
        global_stats r' = global_stats r).
Proof.
  repeat apply conj.
  - induction cs as [|c cs IH]; intros p Hcs.
    + exists p. rewrite app_nil_r. split; [done|]. split; [done|by destruct p].
    + apply Forall_cons in Hcs as [Hc Hcs]. cbn [foldl].
      assert (H1 : exists p1,
        test_suite_add_child (Suite p) (Suite c) = Suite p1 /\
        suite_list (child_suites p1) = suite_list (child_suites p) ++ [c] /\
        forall k, set_child_suites p1 k = set_child_suites p k).
      { unfold test_suite_add_child. destruct p as [n tc [|current] x st].
        - eexists. split; [done|]. split; [|done].
          cbn [child_suites set_child_suites]. by rewrite suite_list_single.
        - eexists. split; [done|]. split; [|done].
          cbn [child_suites set_child_suites].
          by rewrite suite_link_last_list, (suite_list_single c). }
      destruct H1 as (p1 & -> & Hlist1 & Hrest1).
      destruct (IH p1 Hcs) as (p' & -> & Hlist & Hrest).
      exists p'. split; [done|]. split.
      * by rewrite Hlist, Hlist1, <- app_assoc.
      * rewrite <- (set_child_suites_twice p' (child_suites p1)), Hrest, Hrest1.
        by destruct p.
  - induction cs as [|c cs IH]; intros s Hcs.
    + exists s. rewrite app_nil_r. split; [done|]. split; [done|by destruct s].
    + apply Forall_cons in Hcs as [Hc Hcs]. cbn [foldl].
      assert (H1 : exists s1,
        test_suite_add_test_case (Suite s) (Case c) = Suite s1 /\
        case_list (test_cases s1) = case_list (test_cases s) ++ [c] /\
        forall k, set_test_cases s1 k = set_test_cases s k).
      { unfold test_suite_add_test_case. destruct s as [n [|current] k x st].
        - eexists. split; [done|]. split; [|done].
          cbn [test_cases set_test_cases]. by rewrite case_list_single.
        - eexists. split; [done|]. split; [|done].
          cbn [test_cases set_test_cases].
          by rewrite case_link_last_list, (case_list_single c). }
      destruct H1 as (s1 & -> & Hlist1 & Hrest1).
      destruct (IH s1 Hcs) as (s' & -> & Hlist & Hrest).
      exists s'. split; [done|]. split.
      * by rewrite Hlist, Hlist1, <- app_assoc.
      * rewrite <- (set_test_cases_twice s' (test_cases s1)), Hrest, Hrest1.
        by destruct s.
  - induction ss as [|s ss IH]; intros r Hss.
    + exists r. rewrite app_nil_r. done.
    + apply Forall_cons in Hss as [Hs Hss]. cbn [foldl].
      assert (H1 : exists r1,
        test_runner_add_suite (Some r) (Suite s) = Some r1 /\
        suite_list (root_suite r1) = suite_list (root_suite r) ++ [s] /\
        global_stats r1 = global_stats r).
      { unfold test_runner_add_suite. destruct r as [[|current] gs].
        - eexists. split; [done|]. split; [|done].
          cbn [root_suite]. by rewrite suite_list_single.
        - eexists. split; [done|]. split; [|done].
          cbn [root_suite]. by rewrite suite_link_last_list, (suite_list_single s). }
      destruct H1 as (r1 & -> & Hlist1 & Hgs1).
      destruct (IH r1 Hss) as (r' & -> & Hlist & Hgs).
      exists r'. split; [done|]. split.
      * by rewrite Hlist, Hlist1, <- app_assoc.
      * by rewrite Hgs.
Qed.

Lemma adds_keep_call_order_witness :
  exists p',
    foldl (fun parent c => test_suite_add_child parent (Suite c))
          (Suite math_suite) [edge_suite; edge_tree]
    = Suite p' /\
    suite_list (child_suites p')
    = suite_list (child_suites math_suite) ++ [edge_suite; edge_tree] /\
    set_child_suites p' (child_suites math_suite) = math_suite.
Proof.
  destruct adds_keep_call_order as (Hadd & _ & _).
  apply (Hadd [edge_suite; edge_tree] math_suite).
  repeat constructor.
Defined.

(** ** The layout of the report *)

Lemma string_length_app (a b : string) :
  String.length (a +:+ b) = (String.length a + String.length b)%nat.
Proof.
  induction a as [|x a IH]; [done|].
  change (S (String.length (a +:+ b)) = S (String.length a + String.length b)).
  by rewrite IH.
Qed.

Lemma spaces_length n : String.length (spaces n) = n.
Proof. induction n as [|n IH]; simpl; [done|]. by rewrite IH. Qed.

Lemma to_int_of_size_t z : to_int (to_size_t z) = to_int z.
Proof.
  unfold to_int, to_size_t. f_equal.
  rewrite Zplus_mod, Z.mod_mod_divide, <- Zplus_mod; [done|].
  by exists 4294967296.
Qed.

(** The padding [print_tree_node] computes, when the lengths fit an
    [int]: the difference itself, so far as it is at least one. *)
Lemma padding_value lp ln :
  0 <= lp -> 0 <= ln -> lp + ln <= INT_MAX ->
  to_int (to_size_t (to_size_t (to_size_t (50 - lp) - to_int ln) - 2))
  = 48 - lp - ln.
Proof.
  unfold INT_MAX. intros Hp Hn Hfit.
  rewrite (to_int_id ln) by (unfold INT_MAX; lia).
  rewrite to_int_of_size_t. unfold to_size_t.
  rewrite Zminus_mod_idemp_l.
  fold (to_size_t (50 - lp - ln)). 
  replace (to_size_t (50 - lp - ln) - 2) with (to_size_t (50 - lp - ln) + (-2)) by lia.
  rewrite <- to_int_add_l, to_int_of_size_t, to_int_add_l.
  rewrite to_int_id by (unfold INT_MAX; lia). lia.
Qed.

(** X8: the line of a suite is its prefix, a tree glyph, its name,
    padding, and its statistics.  When prefix and name together are at
    most 47 bytes the statistics begin 54 bytes into the line, whatever
    prefix and name are; past that, exactly one space separates them
    from the name.  (Lengths are byte counts; prefix and name together
    fit an [int].) *)
Theorem stats_column s prefix is_last depth :
  strlen prefix + strlen (suite_name s) <= INT_MAX ->
  exists pad rest,
    print_tree_node_at s prefix is_last depth
    = (prefix +:+ (if is_last then CORNER else TEE) +:+ DASH +:+ suite_name s) +:+
      spaces pad +:+ print_stats (stats s) +:+ NL +:+ rest /\
    Z.of_nat pad = Z.max 1 (48 - strlen prefix - strlen (suite_name s)) /\
    Z.of_nat (String.length
                ((prefix +:+ (if is_last then CORNER else TEE) +:+ DASH +:+ suite_name s)
                 +:+ spaces pad))
    = Z.max 54 (strlen prefix + strlen (suite_name s) + 7).
Proof.
  intros Hfit. destruct s as [n tc k x st]. cbn [suite_name stats] in *.
  cbn [print_tree_node_at suite_name stats child_suites test_cases].
  assert (Hpad : to_int (to_size_t (to_size_t (to_size_t (50 - strlen prefix)
                   - to_int (strlen n)) - 2)) = 48 - strlen prefix - strlen n).
  { apply padding_value; unfold strlen in *; lia. }
  rewrite Hpad.
  eexists _, _. split; [reflexivity|].
  assert (Hglyph : String.length (if is_last then CORNER else TEE) = 3%nat)
    by (by destruct is_last).
  rewrite !string_length_app, spaces_length, Hglyph.
  change (String.length DASH) with 3%nat. unfold strlen in *.
  destruct (48 - Z.of_nat (String.length prefix) - Z.of_nat (String.length n) <? 1) eqn:E.
  - apply Z.ltb_lt in E. split; lia.
  - apply Z.ltb_ge in E. split; lia.
Qed.

Lemma stats_column_witness :
  exists pad rest,
    print_tree_node_at math_tree "| " false 1
    = ("| " +:+ TEE +:+ DASH +:+ suite_name math_tree) +:+
      spaces pad +:+ print_stats (stats math_tree) +:+ NL +:+ rest /\
    Z.of_nat pad = Z.max 1 (48 - strlen "| " - strlen (suite_name math_tree)) /\
    Z.of_nat (String.length
                (("| " +:+ TEE +:+ DASH +:+ suite_name math_tree) +:+ spaces pad))
    = Z.max 54 (strlen "| " + strlen (suite_name math_tree) + 7).
Proof.
  apply (stats_column math_tree "| " false 1). vm_compute. discriminate.
Defined.

Lemma print_tree_suites :
  (forall s S, S ∈ suites_of s -> forall prefix is_last depth,
      exists pad, (1 <= pad)%nat /\
        occurs (suite_line S pad) (print_tree_node_at s prefix is_last depth)) /\
  (forall p S, S ∈ chain_suites p -> forall prefix depth,
      exists pad, (1 <= pad)%nat /\
        occurs (suite_line S pad) (print_siblings p prefix depth)).
Proof.
  apply suite_tree_ind.
  - intros [n tc k x st] IH S. cbn [suites_of child_suites] in *.
    intros [-> | Hin]%elem_of_cons prefix is_last depth.
    + cbn [print_tree_node_at suite_name stats child_suites test_cases].
      set (v := to_int _).
      exists (Z.to_nat (if v <? 1 then 1 else v)). split.
      { destruct (v <? 1) eqn:E; [lia | apply Z.ltb_ge in E; lia]. }
      exists (prefix +:+ (if is_last then CORNER else TEE) +:+ DASH).
      eexists. unfold suite_line. cbn [suite_name stats].
      rewrite !string_app_assoc. reflexivity.
    + destruct (IH S Hin (snprintf 256 (prefix +:+ (if is_last then " " else BAR) +:+ " "))
                  (to_int (depth + 1))) as (pad & Hpad & Hocc).
      exists pad. split; [done|].
      cbn [print_tree_node_at suite_name stats child_suites test_cases].
      do 4 apply occurs_r. by apply occurs_l.
  - intros S H. by apply elem_of_nil in H.
  - intros s IHs IHx S. cbn [chain_suites print_siblings].
    intros [Hin|Hin]%elem_of_app prefix depth.
    + destruct (IHs S Hin prefix (is_null_suite (suite_next s)) depth)
        as (pad & Hpad & Hocc).
      exists pad. split; [done|]. by apply occurs_l.
    + destruct (IHx S Hin prefix depth) as (pad & Hpad & Hocc).
      exists pad. split; [done|]. by apply occurs_r.
Qed.

Lemma fresh_counted S : stats_fresh S -> stats S = counted S.
Proof.
  intros H. unfold counted.
  rewrite <- (H STATUS_SUCCESS), <- (H STATUS_UNEXPECTED_OUTPUT),
    <- (H STATUS_EXPECTED_BUILD_ERROR), <- (H STATUS_BUILD_ERROR),
    <- (H STATUS_EXPECTED_RUNTIME_ERROR), <- (H STATUS_RUNTIME_ERROR)
    by (unfold is_status; lia).
  by destruct (stats S).
Qed.

Lemma counted_same a b :
  clear_stats_at a = clear_stats_at b -> counted a = counted b.
Proof.
  intros H. unfold counted. by destruct (same_but_stats a b H) as [_ ->].
Qed.

(** The first loop of [print_test_results], suite by suite. *)
Lemma calculate_siblings_paired p :
  Forall2 (fun S0 S => clear_stats_at S = clear_stats_at S0 /\ stats_fresh S)
          (chain_suites p) (chain_suites (calculate_siblings p)).
Proof.
  apply Forall2_and_r; [|apply calculate_siblings_fresh].
  apply (proj2 suites_paired). apply calculate_siblings_clear.
Qed.

Lemma chain_cases_calculate p : chain_cases (calculate_siblings p) = chain_cases p.
Proof.
  by rewrite <- (proj2 chain_cases_clear), calculate_siblings_clear,
       (proj2 chain_cases_clear).
Qed.

(** X9: what a report holds, read off the runner it is called on.
    Without suites (a null runner, or an empty list) nothing is printed,
    not even the legend.  Otherwise the report begins with the legend;
    it has a line for every suite of the runner, at every depth, with
    the suite's name, at least one space and six counters that are the
    numbers of outcomes of each kind recorded in the suite's subtree
    (whatever the suite's [stats] held before the call); and it has a
    line for every case of the runner, at every depth, with its name and
    its outcomes. *)
Theorem report_contents (runner : option test_runner) :
  (runner_root runner = NULL_suite ->
   print_test_results runner = (EmptyString, runner)) /\
  (runner_root runner <> NULL_suite ->
   exists rest, fst (print_test_results runner) = print_legend +:+ rest) /\
  (forall S, S ∈ runner_suites runner ->
     exists pad, (1 <= pad)%nat /\
       occurs (counted_line S pad) (fst (print_test_results runner))) /\
  (forall c, c ∈ chain_cases (runner_root runner) ->
     occurs (case_line c) (fst (print_test_results runner))).
Proof.
  destruct runner as [[root gs]|].
  - unfold print_test_results. cbn [runner_root root_suite global_stats].
    destruct root as [|s].
    + repeat apply conj; try done.
      * intros S H. by apply elem_of_nil in H.
      * intros c H. by apply elem_of_nil in H.
    + cbn [fst snd runner_suites runner_root root_suite]. repeat apply conj.
      * done.
      * intros _. by eexists.
      * intros S0 HS0.
        destruct (Forall2_elem_l _ _ _ _ (calculate_siblings_paired (Suite s)) HS0)
          as (S & HS & Hsame & Hfresh).
        destruct (proj2 print_tree_suites _ S HS EmptyString 0) as (pad & Hpad & Hocc).
        exists pad. split; [done|]. apply occurs_r.
        unfold suite_line in Hocc. unfold counted_line.
        destruct (same_but_stats _ _ Hsame) as [Hname _].
        by rewrite <- Hname, <- (counted_same _ _ Hsame), <- (fresh_counted S Hfresh).
      * intros c Hc. apply occurs_r. apply (proj2 print_tree_occurs).
        by rewrite chain_cases_calculate.
  - repeat apply conj; try done.
    + intros S H. by apply elem_of_nil in H.
    + intros c H. by apply elem_of_nil in H.
Qed.

(** ** The run, in full *)

Lemma set_case_next_id c : set_case_next c (case_next c) = c.
Proof. by destruct c. Qed.

Lemma case_name_set_next c x : case_name (set_case_next c x) = case_name c.
Proof. by destruct c. Qed.

Lemma result_count_set_next c x : result_count (set_case_next c x) = result_count c.
Proof. by destruct c. Qed.

Lemma warning_unlink c c' x y :
  warning (set_case_next c x) (set_case_next c' y) = warning c c'.
Proof.
  unfold warning. by rewrite due_set_next, result_count_set_next, case_name_set_next.
Qed.

Lemma outcomes_single_count c v : outcomes c = [v] -> (result_count c =? 0) = false.
Proof.
  unfold outcomes. intros H. apply Z.eqb_neq. intros Hz. by rewrite Hz in H.
Qed.

(** One step of the inner loop: the streams and the state of the test
    functions. *)
Lemma run_case_world {G} (code : test_func_t -> G -> test_status_t * G) c w c' w' :
  run_case code c w = (c', w') ->
  w_stdout w' = w_stdout w /\
  w_user w' = match due c with
              | Some f => snd (code f (w_user w))
              | None => w_user w
              end /\
  (case_inv c ->
   w_stderr w' = w_stderr w +:+ warning c c' /\
   (Forall (eq true) (w_alloc w) ->
    outcomes c' = match due c with
                  | Some f => [fst (code f (w_user w))]
                  | None => outcomes c
                  end)).
Proof.
  unfold run_case, warning, due.
  destruct (test_func c) as [f|];
    [|intros [= <- <-]; by rewrite string_app_empty_r].
  destruct (result_count c =? 0) eqn:Hempty;
    [|intros [= <- <-]; by rewrite string_app_empty_r].
  apply Z.eqb_eq in Hempty.
  destruct (code f (w_user w)) as [result g] eqn:Hcall.
  destruct (add_result_at c result (w_alloc w)) as [[r c1] m] eqn:Hadd.
  intros [= <- <-]. cbn [w_stdout w_user w_stderr snd fst].
  split; [done|]. split; [done|]. intros Hinv.
  destruct (add_result_at_inv _ _ _ _ _ _ Hinv Hadd)
    as (_ & _ & [[-> ->]|(-> & Hout & Hcnt)]).
  - rewrite Hempty. split; [done|]. intros Hm.
    destruct (add_result_at_granted c result (w_alloc w) Hinv Hm)
      as (c2 & m2 & Hadd2 & _).
    { destruct (Z_lt_le_dec (result_count c) (result_capacity c)); [by left|].
      right. destruct Hinv as (? & ? & ?). unfold INT_MAX. lia. }
    rewrite Hadd in Hadd2. done.
  - rewrite Hcnt, Hempty. split; [done|]. intros _.
    rewrite Hout. unfold outcomes. by rewrite Hempty.
Qed.

Lemma warnings_app l1 l1' l2 l2' :
  length l1 = length l1' ->
  warnings (l1 ++ l2) (l1' ++ l2') = warnings l1 l1' +:+ warnings l2 l2'.
Proof.
  revert l1'. induction l1 as [|c l1 IH]; intros [|c' l1'] Hlen; try done.
  cbn [app warnings]. rewrite IH by (simpl in Hlen; lia).
  by rewrite string_app_assoc.
Qed.

Lemma run_logs_app {G} (code : test_func_t -> G -> test_status_t * G) l1 l2 : forall g,
  run_logs code g (l1 ++ l2)
  = run_logs code g l1 ++
    run_logs code (foldl (fun g f => snd (code f g)) g (omap due l1)) l2.
Proof.
  induction l1 as [|c l1 IH]; intros g; [done|].
  cbn [app run_logs]. rewrite omap_due_cons.
  destruct (due c) as [f|]; cbn [option_list app foldl]; by rewrite IH.
Qed.

(** The inner loop: lengths, streams, state and logs. *)
Lemma run_cases_world {G} (code : test_func_t -> G -> test_status_t * G) p :
  forall w p' w',
    run_cases code p w = (p', w') ->
    length (case_list p') = length (case_list p) /\
    w_stdout w' = w_stdout w /\
    w_user w' = foldl (fun g f => snd (code f g)) (w_user w) (omap due (case_list p)) /\
    (Forall case_inv (case_list p) ->
     w_stderr w' = w_stderr w +:+ warnings (case_list p) (case_list p') /\
     (Forall (eq true) (w_alloc w) ->
      outcomes <$> case_list p' = run_logs code (w_user w) (case_list p))).
Proof.
  induction p as [|c IH] using case_chain_ind; intros w p' w'.
  - intros [= <- <-]. cbn. by rewrite string_app_empty_r.
  - cbn [run_cases].
    destruct (run_case code c w) as [c1 w1] eqn:Hc.
    destruct (run_cases code (case_next c) w1) as [rest w2] eqn:Hrest.
    intros [= <- <-].
    destruct (run_case_world _ _ _ _ _ Hc) as (Hout & Huser & Hinvs).
    destruct (run_case_spec _ _ _ _ _ Hc) as (_ & _ & _ & _ & Hgranted).
    destruct (IH _ _ _ Hrest) as (Hlen2 & Hout2 & Huser2 & Hinvs2).
    assert (Hlist : case_list (Case (set_case_next c1 rest))
                    = set_case_next c1 NULL_case :: case_list rest)
      by (by destruct c1).
    rewrite Hlist. cbn [case_list length]. rewrite omap_due_cons, due_set_next.
    split; [by rewrite Hlen2|]. split; [by rewrite Hout2|]. split.
    { rewrite Huser2, Huser. by destruct (due c). }
    intros [Hinv Hrestinv]%Forall_cons. apply case_inv_set_next in Hinv.
    destruct (Hinvs Hinv) as [Herr Hlog].
    destruct (Hinvs2 Hrestinv) as [Herr2 Hlog2].
    cbn [warnings]. rewrite warning_unlink. split.
    { by rewrite Herr2, Herr, string_app_assoc. }
    intros Hm. destruct (Hgranted Hinv Hm) as [_ Hm1].
    cbn [fmap list_fmap run_logs]. rewrite due_set_next, !outcomes_set_next.
    rewrite (Hlog Hm).
    change (list_fmap test_case (list test_status_t) outcomes (case_list rest))
      with (outcomes <$> case_list rest).
    rewrite (Hlog2 Hm1), Huser. by destruct (due c).
Qed.

(** The outer loop. *)
Lemma run_suites_world {G} (code : test_func_t -> G -> test_status_t * G) p :
  forall w p' w',
    run_suites code p w = (p', w') ->
    length (top_cases p') = length (top_cases p) /\
    w_stdout w' = w_stdout w /\
    w_user w' = foldl (fun g f => snd (code f g)) (w_user w) (omap due (top_cases p)) /\
    (Forall case_inv (top_cases p) ->
     w_stderr w' = w_stderr w +:+ warnings (top_cases p) (top_cases p') /\
     (Forall (eq true) (w_alloc w) ->
      outcomes <$> top_cases p' = run_logs code (w_user w) (top_cases p))).
Proof.
  induction p as [|s IH] using suite_chain_ind; intros w p' w'.
  - intros [= <- <-]. cbn. by rewrite string_app_empty_r.
  - cbn [run_suites].
    destruct (run_cases code (test_cases s) w) as [cases w1] eqn:Hcases.
    destruct (run_suites code (suite_next s) w1) as [rest w2] eqn:Hrest.
    intros [= <- <-].
    destruct (run_cases_world _ _ _ _ _ Hcases) as (Hlen & Hout & Huser & Hinvs).
    destruct (run_cases_spec _ _ _ _ _ Hcases) as (_ & _ & Hgranted).
    destruct (IH _ _ _ Hrest) as (Hlen2 & Hout2 & Huser2 & Hinvs2).
    cbn [top_cases test_cases suite_next].
    rewrite !length_app, omap_app, foldl_app.
    split; [by rewrite Hlen, Hlen2|]. split; [by rewrite Hout2|].
    split; [by rewrite Huser2, Huser|].
    intros [Hinv Hrestinv]%Forall_app.
    destruct (Hinvs Hinv) as [Herr Hlog].
    destruct (Hinvs2 Hrestinv) as [Herr2 Hlog2].
    split.
    { rewrite warnings_app by done. by rewrite Herr2, Herr, string_app_assoc. }
    intros Hm. destruct (Hgranted Hinv Hm) as [_ Hm1].
    rewrite fmap_app, run_logs_app, (Hlog Hm), (Hlog2 Hm1), Huser. done.
Qed.

Lemma print_test_results_again runner :
  print_test_results (snd (print_test_results runner)) = print_test_results runner.
Proof.
  destruct runner as [[root gs]|]; [|done].
  unfold print_test_results at 2 3. cbn [root_suite].
  destruct root as [|s]; [done|]. cbn [snd].
  unfold print_test_results. cbn [root_suite].
  rewrite calculate_siblings_twice.
  by destruct (calculate_siblings (Suite s)) eqn:E.
Qed.




(** X11.  The test functions run one after the other on a shared state:
    when every append is granted, the state after [test_runner_run] is
    the state after the due functions of the top-level cases, called in
    the order of the cases, and each top-level case that was due holds
    exactly the status its function returned on the state its
    predecessors left, while the other top-level cases keep their logs. *)
Theorem run_threads_state {G} (code : test_func_t -> G -> test_status_t * G)
    (r : test_runner) (w : world G) :
  Forall case_inv (top_cases (root_suite r)) ->
  Forall (eq true) (w_alloc w) ->
  exists r' w',
    test_runner_run code (Some r) w = (Some r', w') /\
    w_user w'
    = foldl (fun g f => snd (code f g)) (w_user w) (omap due (top_cases (root_suite r))) /\
    outcomes <$> top_cases (root_suite r')
    = run_logs code (w_user w) (top_cases (root_suite r)).
Proof.
  intros Hinv Hm.
  destruct (test_runner_run_unfold code r w) as (root1 & w1 & r' & Hrun & Hroot & ->).
  destruct (run_suites_world _ _ _ _ _ Hrun) as (_ & _ & Huser & Hinvs).
  destruct (Hinvs Hinv) as [_ Hlog].
  exists r'. eexists. split; [done|]. cbn [w_user].
  split; [done|]. by rewrite Hroot, top_cases_calculate, (Hlog Hm).
Qed.

Lemma run_threads_state_witness :
  exists r' w',
    test_runner_run scenario_code (Some scenario_runner) granting_world = (Some r', w') /\
    w_user w'
    = foldl (fun g f => snd (scenario_code f g)) (w_user granting_world)
        (omap due (top_cases (root_suite scenario_runner))) /\
    outcomes <$> top_cases (root_suite r')
    = run_logs scenario_code (w_user granting_world) (top_cases (root_suite scenario_runner)).
Proof.
  apply (run_threads_state scenario_code scenario_runner granting_world).
  - repeat constructor; unfold INT_MAX; simpl; lia.
  - constructor.
Defined.

Lemma run_cases_idle {G} (code : test_func_t -> G -> test_status_t * G) p : forall w,
  omap due (case_list p) = [] -> run_cases code p w = (p, w).
Proof.
  induction p as [|c IH] using case_chain_ind; intros w; [done|].
  cbn [case_list]. rewrite omap_due_cons, due_set_next.
  intros [Hdue Hrest]%app_eq_nil. cbn [run_cases].
  destruct (run_case code c w) as [c1 w1] eqn:Hc.
  destruct (run_case_spec _ _ _ _ _ Hc) as (_ & _ & Hidle & _).
  destruct (due c); [done|]. destruct (Hidle eq_refl) as [-> ->].
  by rewrite (IH w Hrest), set_case_next_id.
Qed.

Lemma run_suites_idle {G} (code : test_func_t -> G -> test_status_t * G) p : forall w,
  omap due (top_cases p) = [] -> run_suites code p w = (p, w).
Proof.
  induction p as [|s IH] using suite_chain_ind; intros w; [done|].
  cbn [top_cases]. rewrite omap_app. intros [Hcases Hrest]%app_eq_nil.
  cbn [run_suites]. rewrite (run_cases_idle code _ w Hcases), (IH w Hrest).
  by destruct s.
Qed.

Lemma ran_granted_idle {G} (code : test_func_t -> G -> test_status_t * G) l l' :
  Forall2 (ran_granted code) l l' -> omap due l' = [].
Proof.
  induction 1 as [|c c' l l' Hran _ IH]; [done|].
  rewrite omap_due_cons, IH, app_nil_r.
  unfold ran_granted in Hran. destruct (due c) as [f|] eqn:Hdue.
  - destruct Hran as [g Hout]. unfold due.
    rewrite (outcomes_single_count _ _ Hout). by destruct (test_func c').
  - subst c'. by rewrite Hdue.
Qed.

(** X12.  A run is not repeated: after a [test_runner_run] in which
    every append was granted, a second [test_runner_run] calls no test
    function, asks the allocator for nothing, writes no warning, leaves
    the runner exactly as it was, and prints the same report again. *)
Theorem run_again_only_prints {G} (code : test_func_t -> G -> test_status_t * G)
    (r : test_runner) (w : world G) :
  Forall case_inv (top_cases (root_suite r)) ->
  Forall (eq true) (w_alloc w) ->
  exists r1 w1,
    test_runner_run code (Some r) w = (Some r1, w1) /\
    test_runner_run code (Some r1) w1
    = (Some r1,
       mk_world (w_alloc w1) (w_user w1) (w_calls w1)
         (w_stdout w1 +:+ fst (print_test_results (Some r1))) (w_stderr w1)) /\
    exists before, w_stdout w1 = before +:+ fst (print_test_results (Some r1)).
Proof.
  intros Hinv Hm. unfold test_runner_run at 1.
  destruct (run_suites code (root_suite r) w) as [root1 w0] eqn:Hrun.
  destruct (run_suites_spec _ _ _ _ _ Hrun) as (_ & _ & _ & Hgranted).
  destruct (Hgranted Hinv Hm) as [Hran _].
  pose proof (print_test_results_again (Some (mk_runner root1 (global_stats r)))) as Hagain.
  pose proof (print_test_results_root (Some (mk_runner root1 (global_stats r)))) as Hroot.
  destruct (print_test_results (Some (mk_runner root1 (global_stats r))))
    as [printed [r1|]] eqn:Hprint.
  2: { unfold print_test_results in Hprint. cbn [root_suite] in Hprint.
       by destruct root1. }
  cbn [snd runner_root root_suite] in Hagain, Hroot.
  exists r1. eexists. split; [done|]. cbn [w_alloc w_user w_calls w_stdout w_stderr].
  split.
  - unfold test_runner_run. rewrite run_suites_idle.
    2: { rewrite Hroot, top_cases_calculate. by apply (ran_granted_idle code _ _ Hran). }
    cbn [w_alloc w_user w_calls w_stdout w_stderr].
    replace (mk_runner (root_suite r1) (global_stats r1)) with r1 by (by destruct r1).
    by rewrite Hagain.
  - exists (w_stdout w0). by rewrite Hagain.
Qed.

Lemma run_again_only_prints_witness :
  exists r1 w1,
    test_runner_run scenario_code (Some scenario_runner) granting_world = (Some r1, w1) /\
    test_runner_run scenario_code (Some r1) w1
    = (Some r1,
       mk_world (w_alloc w1) (w_user w1) (w_calls w1)
         (w_stdout w1 +:+ fst (print_test_results (Some r1))) (w_stderr w1)) /\
    exists before, w_stdout w1 = before +:+ fst (print_test_results (Some r1)).
Proof.
  apply (run_again_only_prints scenario_code scenario_runner granting_world).
  - repeat constructor; unfold INT_MAX; simpl; lia.
  - constructor.
Defined.

(** ** What a run leaves alone *)

Lemma add_result_at_frame c status m r c' m' :
  add_result_at c status m = (r, c', m') ->
  case_name c' = case_name c /\ test_func c' = test_func c /\
  case_next c' = case_next c.
Proof.
  unfold add_result_at.
  destruct (result_capacity c <=? result_count c).
  - destruct (realloc _ _ m) as [[a|] m1]; intros [= <- <- <-]; by destruct c.
  - intros [= <- <- <-]. by destruct c.
Qed.

Lemma run_case_frame {G} (code : test_func_t -> G -> test_status_t * G) c w c' w' :
  run_case code c w = (c', w') ->
  case_name c' = case_name c /\ test_func c' = test_func c /\
  case_next c' = case_next c.
Proof.
  unfold run_case.
  destruct (test_func c) as [f|] eqn:Hf; [|by intros [= <- <-]].
  destruct (result_count c =? 0); [|by intros [= <- <-]].
  destruct (code f (w_user w)) as [result g].
  destruct (add_result_at c result (w_alloc w)) as [[r c1] m] eqn:Hadd.
  intros [= <- <-].
  destruct (add_result_at_frame _ _ _ _ _ _ Hadd) as (? & ? & ?).
  split; [done|]. split; [congruence|done].
Qed.

Lemma run_cases_frame {G} (code : test_func_t -> G -> test_status_t * G) p :
  forall w p' w', run_cases code p w = (p', w') -> blank_cases p' = blank_cases p.
Proof.
  induction p as [|c IH] using case_chain_ind; intros w p' w'.
  - by intros [= <- <-].
  - cbn [run_cases].
    destruct (run_case code c w) as [c1 w1] eqn:Hc.
    destruct (run_cases code (case_next c) w1) as [rest w2] eqn:Hrest.
    intros [= <- <-].
    destruct (run_case_frame _ _ _ _ _ Hc) as (Hn & Hf & _).
    cbn [blank_cases]. rewrite <- (IH _ _ _ Hrest), <- Hn, <- Hf.
    by destruct c1.
Qed.

Lemma run_suites_frame {G} (code : test_func_t -> G -> test_status_t * G) p :
  forall w p' w', run_suites code p w = (p', w') -> blank_top p' = blank_top p.
Proof.
  induction p as [|s IH] using suite_chain_ind; intros w p' w'.
  - by intros [= <- <-].
  - cbn [run_suites].
    destruct (run_cases code (test_cases s) w) as [cases w1] eqn:Hcases.
    destruct (run_suites code (suite_next s) w1) as [rest w2] eqn:Hrest.
    intros [= <- <-].
    cbn [blank_top suite_name test_cases child_suites suite_next stats].
    by rewrite (run_cases_frame _ _ _ _ _ Hcases), (IH _ _ _ Hrest).
Qed.

Lemma blank_top_clear p : blank_top (clear_stats p) = clear_stats (blank_top p).
Proof.
  induction p as [|s IH] using suite_chain_ind; [done|].
  destruct s as [n tc k x st].
  cbn [clear_stats clear_stats_at blank_top suite_name test_cases child_suites
       suite_next stats] in *.
  by rewrite IH.
Qed.

(** X13.  What [test_runner_run] leaves alone, whatever the allocator
    does and whatever the test functions return: the runner it returns
    differs from the one it was given only in the [stats] fields and in
    the logs of the cases owned directly by the suites of the runner's
    list.  Names, test functions, the order of suites and cases, and the
    child suites with their cases and logs are as before, and so is
    [global_stats], which the run never writes. *)
Theorem run_frame {G} (code : test_func_t -> G -> test_status_t * G)
    (r : test_runner) (w : world G) :
  exists r' w',
    test_runner_run code (Some r) w = (Some r', w') /\
    blank_top (clear_stats (root_suite r')) = blank_top (clear_stats (root_suite r)) /\
    global_stats r' = global_stats r.
Proof.
  unfold test_runner_run.
  destruct (run_suites code (root_suite r) w) as [root1 w1] eqn:Hrun.
  apply run_suites_frame in Hrun.
  pose proof (calculate_siblings_clear root1) as Hclear.
  unfold print_test_results. cbn [root_suite global_stats].
  destruct root1 as [|s1].
  - eexists _, _. split; [done|]. cbn [root_suite global_stats].
    by rewrite !blank_top_clear, Hrun.
  - eexists _, _. split; [done|]. cbn [root_suite global_stats].
    by rewrite Hclear, !blank_top_clear, Hrun.
Qed.

(** ** Reading the statistics back *)

Lemma string_app_inv_head (a x y : string) : a +:+ x = a +:+ y -> x = y.
Proof.
  induction a as [|b a IH]; [done|].
  change ((String b a) +:+ x) with (String b (a +:+ x)).
  change ((String b a) +:+ y) with (String b (a +:+ y)).
  intros [= H]. by apply IH.
Qed.

(** Two texts that agree up to the first [a] of each agree before it and
    after it. *)
Lemma split_at_first (a : ascii) (x y u v : string) :
  lacks a x -> lacks a y ->
  x +:+ String a u = y +:+ String a v -> x = y /\ u = v.
Proof.
  revert y. induction x as [|b x IH]; intros [|c y] Hx Hy.
  - by intros [= <-].
  - change (EmptyString +:+ String a u) with (String a u).
    change ((String c y) +:+ String a v) with (String c (y +:+ String a v)).
    intros [= <- _]. by destruct Hy.
  - change (EmptyString +:+ String a v) with (String a v).
    change ((String b x) +:+ String a u) with (String b (x +:+ String a u)).
    intros [= -> _]. by destruct Hx.
  - change ((String b x) +:+ String a u) with (String b (x +:+ String a u)).
    change ((String c y) +:+ String a v) with (String c (y +:+ String a v)).
    intros [= -> H]. destruct Hx as [_ Hx], Hy as [_ Hy].
    destruct (IH y Hx Hy H) as [-> ->]. done.
Qed.

Lemma lacks_spaces a n : a <> " "%char -> lacks a (spaces n).
Proof. intros Ha. induction n as [|n IH]; [done|]. split; [congruence|done]. Qed.

Lemma lacks_uint a d :
  (a <? "0")%char = true -> lacks a (NilEmpty.string_of_uint d).
Proof.
  intros Ha.
  induction d as [|d IH|d IH|d IH|d IH|d IH|d IH|d IH|d IH|d IH|d IH];
    [done|..]; (split; [intros <-; vm_compute in Ha; discriminate|done]).
Qed.

(** What [%d] prints holds digits and a minus sign only. *)
Lemma lacks_fmt_d a z :
  (a <? "0")%char = true -> a <> "-"%char -> lacks a (fmt_d z).
Proof.
  intros Ha Hminus. unfold fmt_d.
  assert (Hu : forall d, lacks a (NilZero.string_of_uint d)).
  { intros d. pose proof (lacks_uint a d Ha) as H.
    destruct d; try done. split; [|done].
    intros <-. vm_compute in Ha. discriminate. }
  destruct (Z.to_int z) as [d|d]; cbn [NilZero.string_of_int]; [done|].
  split; [congruence|done].
Qed.

Lemma fmt_d_inj a b : fmt_d a = fmt_d b -> a = b.
Proof.
  unfold fmt_d. intros H. apply DecimalZ.to_int_inj.
  assert (Hnonnil : forall z, Z.to_int z <> Decimal.Pos Decimal.Nil /\
                              Z.to_int z <> Decimal.Neg Decimal.Nil).
  { intros [|p|p]; cbn [Z.to_int]; split; try done;
      intros [= Hp]; by apply DecimalPos.Unsigned.to_uint_nonnil in Hp. }
  destruct (Hnonnil a) as [Ha1 Ha2], (Hnonnil b) as [Hb1 Hb2].
  pose proof (NilZero.isi _ Ha1 Ha2) as Hra.
  pose proof (NilZero.isi _ Hb1 Hb2) as Hrb.
  rewrite H in Hra. congruence.
Qed.

Lemma spaces_inv_head n n' x y :
  lacks " "%char x -> lacks " "%char y ->
  spaces n +:+ x = spaces n' +:+ y -> x = y.
Proof.
  revert n'. induction n as [|n IH]; intros [|n'] Hx Hy H.
  - done.
  - change (x = String " "%char (spaces n' +:+ y)) in H.
    rewrite H in Hx. by destruct Hx.
  - change (String " "%char (spaces n +:+ x) = y) in H.
    rewrite <- H in Hy. by destruct Hy.
  - change (String " "%char (spaces n +:+ x) = String " "%char (spaces n' +:+ y)) in H.
    injection H as H. by apply (IH n').
Qed.

Lemma fmt_2d_inj a b : fmt_2d a = fmt_2d b -> a = b.
Proof.
  unfold fmt_2d. intros H. apply fmt_d_inj.
  apply spaces_inv_head in H; [done| |]; by apply lacks_fmt_d.
Qed.

Lemma lacks_fmt_2d z : lacks ESC (fmt_2d z).
Proof.
  unfold fmt_2d. apply lacks_app; [by apply lacks_spaces|by apply lacks_fmt_d].
Qed.

(** One field of the statistics line: a number up to the colour reset
    that follows it. *)
Lemma field_inv (x y u v : string) :
  lacks ESC x -> lacks ESC y ->
  x +:+ ANSI_RESET +:+ u = y +:+ ANSI_RESET +:+ v -> x = y /\ u = v.
Proof.
  intros Hx Hy H.
  change (ANSI_RESET +:+ u) with (String ESC ("[0m" +:+ u)) in H.
  change (ANSI_RESET +:+ v) with (String ESC ("[0m" +:+ v)) in H.
  destruct (split_at_first _ _ _ _ _ Hx Hy H) as [-> Huv].
  by apply string_app_inv_head in Huv.
Qed.

Lemma field_inv_last (x y : string) :
  lacks ESC x -> lacks ESC y ->
  x +:+ ANSI_RESET = y +:+ ANSI_RESET -> x = y.
Proof.
  intros Hx Hy H.
  change ANSI_RESET with (String ESC "[0m") in H.
  by destruct (split_at_first _ _ _ _ _ Hx Hy H).
Qed.

(** X14.  The statistics text can be read back: [print_stats] gives
    different texts for different statistics, so the six counters of a
    suite are determined by its line of the report. *)
Theorem print_stats_inj (a b : test_stats_t) :
  a <> b -> print_stats a <> print_stats b.
Proof.
  intros Hne H. apply Hne. unfold print_stats in H.
  pose proof (fun z => lacks_fmt_d ESC z eq_refl ltac:(discriminate)) as Hd.
  pose proof lacks_fmt_2d as H2.
  apply string_app_inv_head, string_app_inv_head, field_inv in H as [H1 H]; [|done..].
  apply string_app_inv_head, string_app_inv_head, field_inv in H as [H2' H]; [|done..].
  apply string_app_inv_head, string_app_inv_head, field_inv in H as [H3 H]; [|done..].
  apply string_app_inv_head, string_app_inv_head, field_inv in H as [H4 H]; [|done..].
  apply string_app_inv_head, string_app_inv_head, field_inv in H as [H5 H]; [|done..].
  apply string_app_inv_head, string_app_inv_head, field_inv_last in H; [|done..].
  apply fmt_2d_inj in H1, H3, H5. apply fmt_d_inj in H2', H4, H.
  destruct a, b. cbn in *. congruence.
Qed.

Lemma print_stats_inj_witness :
  mk_stats 1 0 0 0 0 0 <> mk_stats 10 0 0 0 0 0 /\
  print_stats (mk_stats 1 0 0 0 0 0) <> print_stats (mk_stats 10 0 0 0 0 0).
Proof.
  split; [discriminate|].
  apply (print_stats_inj (mk_stats 1 0 0 0 0 0) (mk_stats 10 0 0 0 0 0)).
  discriminate.
Defined.

(** ** Releasing the structures *)

(** Clearing [next] first, as the loop of [test_suite_destroy_siblings]
    does, makes no difference to [test_suite_destroy]. *)
Lemma test_suite_destroy_at_unlinked s x :
  test_suite_destroy_at (set_suite_next s x) = test_suite_destroy_at s.
Proof. by destruct s. Qed.

Lemma test_case_destroy_blocks c x :
  test_case_destroy (Case (set_case_next c x)) = case_blocks c.
Proof. destruct c as [n f [a|] k cap nx]; reflexivity. Qed.

Lemma test_case_destroy_siblings_list p :
  test_case_destroy_siblings p = case_list p ≫= case_blocks.
Proof.
  induction p as [|c IH] using case_chain_ind; [done|].
  cbn [test_case_destroy_siblings case_list]. rewrite bind_cons, IH.
  f_equal. rewrite test_case_destroy_blocks. by destruct c as [n f [a|] k cap nx].
Qed.

Lemma destroy_tree :
  (forall s, test_suite_destroy_at s ≡ₚ blocks_of (subtree_cases s) (suites_of s)) /\
  (forall p, test_suite_destroy_siblings p ≡ₚ blocks_of (chain_cases p) (chain_suites p)).
Proof.
  apply suite_tree_ind.
  - intros s IH. destruct s as [n tc ch nx st]. unfold blocks_of in *.
    cbn [test_suite_destroy_at subtree_cases suites_of test_cases child_suites suite_name].
    rewrite bind_app, bind_cons.
    replace (if is_null_case tc then [] else test_case_destroy_siblings tc)
      with (test_case_destroy_siblings tc) by (by destruct tc).
    replace (if is_null_suite ch then [] else test_suite_destroy_siblings ch)
      with (test_suite_destroy_siblings ch) by (by destruct ch).
    rewrite IH, test_case_destroy_siblings_list.
    unfold free, suite_blocks at 2. cbn [option_list suite_name].
    solve_Permutation.
  - done.
  - intros s Hs Hrest. unfold blocks_of in *.
    cbn [test_suite_destroy_siblings chain_cases chain_suites].
    rewrite !bind_app, Hs, Hrest. solve_Permutation.
Qed.

(** X15.  Destroying releases what the structure owns, and nothing else.
    [test_case_destroy_siblings] releases, case by case along the chain,
    the name, the result array when there is one, and the struct.
    [test_suite_destroy] releases the blocks of the cases and suites of
    the suite's subtree, the suite included, and none of the siblings
    that follow it; [test_suite_destroy_siblings] those of the whole
    chain; [test_runner_destroy] those of every suite and case the runner
    holds and then the runner itself.  Null pointers release nothing. *)
Theorem destroy_releases_owned :
  (forall p, test_case_destroy_siblings p = case_list p ≫= case_blocks) /\
  (forall s, test_suite_destroy (Suite s) ≡ₚ blocks_of (subtree_cases s) (suites_of s)) /\
  (forall p, test_suite_destroy_siblings p ≡ₚ blocks_of (chain_cases p) (chain_suites p)) /\
  (forall r, exists tree,
     test_runner_destroy (Some r) = tree ++ [Block_runner] /\
     tree ≡ₚ blocks_of (chain_cases (root_suite r)) (runner_suites (Some r))) /\
  test_case_destroy NULL_case = [] /\ test_suite_destroy NULL_suite = [] /\
  test_runner_destroy None = [].
Proof.
  split; [apply test_case_destroy_siblings_list|].
  split; [apply destroy_tree|]. split; [apply destroy_tree|].
  split; [|done].
  intros [root gs]. exists (test_suite_destroy_siblings root).
  split; [by destruct root|]. apply destroy_tree.
Qed.
